(** * graphistry/collapse.py: collapsing nodes that share an attribute

    A shallow embedding of [graphistry/collapse.py].  The pandas tables are
    lists of rows, a row maps a column label to its cell, Python exceptions
    are an error monad, the [seen] dict is a finite map, and the recursion
    of [collapse] is bounded by the interpreter's recursion limit. *)

From Stdlib Require Import Ascii.
From stdpp Require Import gmap strings list pretty sorting.

Open Scope string_scope.

(** ** Python values and strings *)

(** A non-missing cell: a Python [str] or [int] ([UnionStrInt]). *)
Inductive scalar :=
| Str (s : string)
| Int (z : Z).

Global Instance scalar_eq_dec : EqDecision scalar.
Proof. solve_decision. Defined.

(** A cell of a table, or an argument: [None] is pandas' [NaN]. *)
Abbreviation value := (option scalar).

(** [str(x)], also what an f-string renders. *)
Definition py_str (x : value) : string :=
  match x with
  | Some (Str s) => s
  | Some (Int z) => pretty z
  | None => "nan"
  end.

(** [a == b] on cells: [NaN] equals nothing, a [str] never equals an [int]. *)
Definition py_eq (a b : value) : bool :=
  match a, b with
  | Some x, Some y => bool_decide (x = y)
  | _, _ => false
  end.

(** [sub in s] on strings. *)
Fixpoint str_in (sub s : string) : bool :=
  String.prefix sub s ||
  match s with
  | "" => false
  | String _ s' => str_in sub s'
  end.

(** [s.replace(old, new)]: occurrences are replaced left to right and do
    not overlap; [skip] counts the characters of a replaced occurrence that
    are still to be passed over. *)
Fixpoint replace_go (old new : string) (skip : nat) (s : string) : string :=
  match s with
  | "" => ""
  | String c s' =>
      match skip with
      | S k => replace_go old new k s'
      | O =>
          if String.prefix old s
          then new +:+ replace_go old new (String.length old - 1) s'
          else String c (replace_go old new 0 s')
      end
  end.

Fixpoint intersperse_str (new s : string) : string :=
  match s with
  | "" => new
  | String c s' => new +:+ String c (intersperse_str new s')
  end.

Definition replace (s old new : string) : string :=
  match old with
  | "" => intersperse_str new s
  | _ => replace_go old new 0 s
  end.

(** The characters [str.isspace] accepts, among the code points below 256. *)
Definition is_space (c : ascii) : bool :=
  let n := nat_of_ascii c in
  (((9 <=? n) && (n <=? 13)) || ((28 <=? n) && (n <=? 32))
   || (n =? 133) || (n =? 160))%nat.

Definition flush (cur : string) : list string :=
  match cur with
  | "" => []
  | _ => [String.rev cur]
  end.

(** [s.split()]: the maximal runs of non-space characters; [cur] holds the
    run being read, last character first. *)
Fixpoint split_go (cur : string) (s : string) : list string :=
  match s with
  | "" => flush cur
  | String c s' =>
      if is_space c then flush cur ++ split_go "" s'
      else split_go (String c cur) s'
  end.

Definition split (s : string) : list string := split_go "" s.

(** [sep.join(l)] *)
Definition join (sep : string) (l : list string) : string := String.concat sep l.

(** ** numpy *)

Definition str_lt (s t : string) : Prop := String.compare s t = Lt.

Fixpoint insert_unique (x : string) (l : list string) : list string :=
  match l with
  | [] => [x]
  | y :: l' =>
      match String.compare x y with
      | Lt => x :: l
      | Eq => l
      | Gt => y :: insert_unique x l'
      end
  end.

Definition sort_unique (l : list string) : list string :=
  foldr insert_unique [] l.

Definition NUL : ascii := "000"%char.

(** A str as it comes back from a numpy array of strs: the array has a
    fixed width, a shorter str is padded with NUL characters, and the
    trailing NUL characters of an element are dropped when it is read. *)
Fixpoint rstrip_nul (s : string) : string :=
  match s with
  | "" => ""
  | String c s' =>
      match rstrip_nul s' with
      | "" => if decide (c = NUL) then "" else String c ""
      | t => String c t
      end
  end.

(** [np.unique(l)], on a list of strs: the sorted unique elements of the
    array that [l] is stored in. *)
Definition np_unique (l : list string) : list string :=
  sort_unique (rstrip_nul <$> l).

(** ** ClusterKeyCodec *)

Definition COLLAPSE_NODE : string := "collapse_node".
Definition COLLAPSE_SRC : string := "collapse_src".
Definition COLLAPSE_DST : string := "collapse_dst".
Definition WRAP : string := "~".
Definition DEFAULT_VAL : string := "None".

Definition reduce_key (key : string) : string :=
  join " " (np_unique (split key)).

Definition unwrap_key (name : value) : string :=
  replace (py_str name) WRAP "".

Definition wrap_key (name : value) : string :=
  let name := py_str name in
  if str_in WRAP name then name else WRAP +:+ name +:+ WRAP.

(** ** Tokens *)

Fixpoint no_space (s : string) : bool :=
  match s with
  | "" => true
  | String c s' => negb (is_space c) && no_space s'
  end.

(** A token of a key: a non-empty run of non-space characters. *)
Definition token (t : string) : Prop := t ≠ "" ∧ no_space t = true.

(** ** Exceptions *)

Inductive exn :=
| KeyError (label : string)
| IndexError
| ValueError
| ReError
| RecursionError.

(** The result of a Python call: a value, or a raised exception. *)
Inductive res (A : Type) :=
| Ok (a : A)
| Raise (e : exn).
Arguments Ok {A} a.
Arguments Raise {A} e.

Global Instance res_ret : MRet res := λ A a, Ok a.
Global Instance res_bind : MBind res := λ A B f m,
  match m with
  | Ok a => f a
  | Raise e => Raise e
  end.

(** A [for] loop whose body updates a state and may raise. *)
Fixpoint for_each {A S : Type} (body : S → A → res S) (s : S) (l : list A) : res S :=
  match l with
  | [] => Ok s
  | x :: l' => s' ← body s x; for_each body s' l'
  end.

(** ** Regular expressions: the [re] module behind [Series.str.contains] *)

Module Re.

Inductive regex :=
| Null
| Eps
| Chr (c : ascii)
| Dot
| Cat (r1 r2 : regex)
| Alt (r1 r2 : regex)
| Star (r : regex).

(** A group or the whole pattern while it is read: the finished branches
    of its alternation, then the items of the branch being read, last
    item first, each with a flag telling whether it ends in a repeat. *)
Definition frame : Type := list regex * list (regex * bool).

Definition branch (items : list (regex * bool)) : regex :=
  foldl (λ acc it, Cat it.1 acc) Eps items.

Definition close (f : frame) : regex :=
  foldl Alt (branch f.2) f.1.

Definition push (r : regex) (f : frame) : frame := (f.1, (r, false) :: f.2).

Definition repeat (c : ascii) (r : regex) : regex :=
  if decide (c = "*"%char) then Star r
  else if decide (c = "+"%char) then Cat r (Star r)
  else Alt Eps r.

Inductive parsed :=
| Parsed (r : regex)
| SyntaxError
| Unmodelled.

(** The parser of [re.compile], on the fragment made of literal
    characters, [.], [|], plain groups and the repeats [*], [+], [?].
    [stack] holds the frames of the groups that are open around [cur].
    An unclosed or unopened parenthesis and a repeat with nothing before
    it are errors, as in [re]; anything else that [re] gives a meaning
    to (sets, escapes, anchors, counted, lazy and possessive repeats,
    group extensions) is left [Unmodelled]. *)
Fixpoint parse_go (s : string) (stack : list frame) (cur : frame) : parsed :=
  match s with
  | "" =>
      match stack with
      | [] => Parsed (close cur)
      | _ :: _ => SyntaxError
      end
  | String c s' =>
      if decide (c = "("%char) then
        match s' with
        | String "?" _ => Unmodelled
        | _ => parse_go s' (cur :: stack) ([], [])
        end
      else if decide (c = ")"%char) then
        match stack with
        | [] => SyntaxError
        | f :: stack' => parse_go s' stack' (push (close cur) f)
        end
      else if decide (c = "|"%char) then
        parse_go s' stack (branch cur.2 :: cur.1, [])
      else if bool_decide (c ∈ ["*"; "+"; "?"]%char) then
        match cur.2 with
        | [] => SyntaxError
        | (_, true) :: _ => Unmodelled
        | (r, false) :: items => parse_go s' stack (cur.1, (repeat c r, true) :: items)
        end
      else if decide (c = "."%char) then
        parse_go s' stack (push Dot cur)
      else if bool_decide (c ∈ ["["; "]"; "{"; "}"; "\"; "^"; "$"]%char) then
        Unmodelled
      else
        parse_go s' stack (push (Chr c) cur)
  end.

Definition parse (pat : string) : parsed := parse_go pat [] ([], []).

Fixpoint nullable (r : regex) : bool :=
  match r with
  | Null | Chr _ | Dot => false
  | Eps | Star _ => true
  | Cat r1 r2 => nullable r1 && nullable r2
  | Alt r1 r2 => nullable r1 || nullable r2
  end.

(** The words [w] such that [c w] is matched by [r]; [.] matches any
    character but a newline. *)
Fixpoint deriv (c : ascii) (r : regex) : regex :=
  match r with
  | Null | Eps => Null
  | Chr d => if decide (c = d) then Eps else Null
  | Dot => if decide (c = "010"%char) then Null else Eps
  | Cat r1 r2 =>
      if nullable r1 then Alt (Cat (deriv c r1) r2) (deriv c r2)
      else Cat (deriv c r1) r2
  | Alt r1 r2 => Alt (deriv c r1) (deriv c r2)
  | Star r1 => Cat (deriv c r1) (Star r1)
  end.

(** Does [r] match at the start of [s]? *)
Fixpoint match_at (r : regex) (s : string) : bool :=
  nullable r ||
  match s with
  | "" => false
  | String c s' => match_at (deriv c r) s'
  end.

(** [pattern.search(s) is not None]: [r] matches somewhere in [s]. *)
Fixpoint search (r : regex) (s : string) : bool :=
  match_at r s ||
  match s with
  | "" => false
  | String _ s' => search r s'
  end.

End Re.

(** ** pandas tables *)

(** A row maps a column label to its cell; a label that is not bound in a
    row is a missing cell ([NaN]). *)
Abbreviation row := (gmap string scalar).

Record DataFrame := mkDF {
  columns : list string;
  rows : list row
}.

Global Instance DataFrame_eq_dec : EqDecision DataFrame.
Proof. solve_decision. Defined.

(** Write a cell; writing [NaN] leaves the cell missing. *)
Definition set_cell (label : string) (v : value) (r : row) : row :=
  partial_alter (λ _, v) label r.

Definition add_column (label : string) (cols : list string) : list string :=
  if decide (label ∈ cols) then cols else cols ++ [label].

(** [df[label]] *)
Definition df_col (df : DataFrame) (label : string) : res (list value) :=
  if decide (label ∈ columns df) then Ok ((λ r : row, r !! label) <$> rows df)
  else Raise (KeyError label).

(** [series == x] and [series != x] *)
Definition series_eq (s : list value) (x : value) : list bool :=
  (λ c, py_eq c x) <$> s.
Definition series_ne (s : list value) (x : value) : list bool :=
  (λ c, negb (py_eq c x)) <$> s.

(** [series.astype(str)] *)
Definition astype_str (s : list value) : list string := py_str <$> s.

Definition of_str (s : string) : value := Some (Str s).

(** Boolean indexing, [l[mask]] *)
Fixpoint select {A : Type} (l : list A) (mask : list bool) : list A :=
  match l, mask with
  | x :: l', b :: mask' => if b then x :: select l' mask' else select l' mask'
  | _, _ => []
  end.

(** [df[mask]] *)
Definition df_mask (df : DataFrame) (mask : list bool) : DataFrame :=
  mkDF (columns df) (select (rows df) mask).

(** [df.empty] *)
Definition df_empty (df : DataFrame) : bool :=
  bool_decide (columns df = []) || bool_decide (rows df = []).

(** The table after [df.loc[mask, label] = v]: the column is added when
    it is not there. *)
Definition loc_write (df : DataFrame) (mask : list bool) (label : string) (v : value)
  : DataFrame :=
  mkDF (add_column label (columns df))
       (zip_with (λ (r : row) (b : bool), if b then set_cell label v r else r)
                 (rows df) mask).

(** [df.loc[mask, label] = v], for a scalar [v]: pandas refuses to add a
    column to a table without rows ("cannot set a frame with no defined
    index and a scalar"). *)
Definition loc_set (df : DataFrame) (mask : list bool) (label : string) (v : value)
  : res DataFrame :=
  if decide ((label ∉ columns df) ∧ rows df = []) then Raise ValueError
  else Ok (loc_write df mask label v).

(** [df.loc[mask, target] = df.loc[mask, source]] *)
Definition loc_copy (df : DataFrame) (mask : list bool) (target source : string)
  : res DataFrame :=
  if decide (source ∈ columns df) then
    Ok (mkDF (add_column target (columns df))
             (zip_with (λ (r : row) (b : bool),
                          if b then set_cell target (r !! source) r else r)
                       (rows df) mask))
  else Raise (KeyError source).

(** [df[label] = v], for a scalar [v] *)
Definition set_column (df : DataFrame) (label : string) (v : value) : DataFrame :=
  mkDF (add_column label (columns df)) (set_cell label v <$> rows df).

(** [df[label] = series] *)
Definition set_series (df : DataFrame) (label : string) (s : list value) : DataFrame :=
  mkDF (add_column label (columns df))
       (zip_with (λ (r : row) (v : value), set_cell label v r) (rows df) s).

(** [drop_duplicates()]: the first occurrence of each element is kept. *)
Fixpoint drop_duplicates {A : Type} `{EqDecision A} (l : list A) : list A :=
  match l with
  | [] => []
  | x :: l' => x :: filter (λ y, y ≠ x) (drop_duplicates l')
  end.

Definition df_drop_duplicates (df : DataFrame) : DataFrame :=
  mkDF (columns df) (drop_duplicates (rows df)).

(** [df.drop(columns=labels)] *)
Definition df_drop (df : DataFrame) (labels : list string) : res DataFrame :=
  match filter (λ l, l ∉ columns df) labels with
  | [] => Ok (mkDF (filter (λ c, c ∉ labels) (columns df))
                   ((λ r : row, foldr delete r labels) <$> rows df))
  | l :: _ => Raise (KeyError l)
  end.

(** [series.values[0]] *)
Definition first_value (s : list value) : res value :=
  match s with
  | [] => Raise IndexError
  | v :: _ => Ok v
  end.

(** ** The graph handle *)

Record Plottable := mkPlottable {
  _nodes : DataFrame;
  _edges : DataFrame;
  _source : string;
  _destination : string;
  _node : string
}.

Global Instance Plottable_eq_dec : EqDecision Plottable.
Proof. solve_decision. Defined.

Definition set_nodes (g : Plottable) (ndf : DataFrame) : Plottable :=
  mkPlottable ndf (_edges g) (_source g) (_destination g) (_node g).

Definition set_edges (g : Plottable) (edf : DataFrame) : Plottable :=
  mkPlottable (_nodes g) edf (_source g) (_destination g) (_node g).

Definition unpack (g : Plottable) :=
  (_nodes g, _edges g, _source g, _destination g, _node g).

(** The nodes a walk of [hops] steps along the edges expands, starting
    from [wave]. *)
Fixpoint hop_sources (edges : list (value * value)) (hops : nat) (wave : list value)
  : list value :=
  match hops with
  | O => []
  | S k =>
      wave ++ hop_sources edges k
                (snd <$> filter (λ e, Is_true (existsb (py_eq e.1) wave)) edges)
  end.

(** Modelled from the spec: [Plottable.hop], the one-hop/k-hop neighbor
    query of the graph handle, which is not part of these sources.  Given
    start identities and a hop count it returns the subgraph reached going
    forward: the edges leaving a start node or a node reached in fewer than
    [hops] steps, in the order of the edge table, and the rows of the nodes
    these edges lead to. *)
Definition hop (g : Plottable) (nodes : list value) (hops : nat) : res Plottable :=
  srcs ← df_col (_edges g) (_source g);
  dsts ← df_col (_edges g) (_destination g);
  ids ← df_col (_nodes g) (_node g);
  let expanded := hop_sources (zip srcs dsts) hops nodes in
  let emask := (λ s, existsb (py_eq s) expanded) <$> srcs in
  let reached := select dsts emask in
  let nmask := (λ i, existsb (py_eq i) reached) <$> ids in
  Ok (mkPlottable (df_mask (_nodes g) nmask) (df_mask (_edges g) emask)
                  (_source g) (_destination g) (_node g)).

Definition get_children (g : Plottable) (node_id : value) (hops : nat) : res Plottable :=
  hop g [node_id] hops.

Definition get_edges_of_node (g : Plottable) (node_id : value) (directed : bool)
  (hops : nat) : res (list value) :=
  let '(_, _, src, dst, _) := unpack g in
  g2 ← get_children g node_id hops;
  if directed then
    d ← df_col (_edges g2) dst;
    Ok (drop_duplicates d)
  else
    s ← df_col (_edges g2) src;
    d ← df_col (_edges g2) dst;
    Ok (drop_duplicates (s ++ d)).

(** [x in df[df[src] == n][dst].values] *)
Definition leads_to (edf : DataFrame) (src dst : string) (n x : value) : res bool :=
  s ← df_col edf src;
  d ← df_col (df_mask edf (series_eq s n)) dst;
  Ok (existsb (λ v, py_eq v x) d).

Definition has_edge (g : Plottable) (n1 n2 : value) (directed : bool) : res bool :=
  let '(ndf, edf, src, dst, node) := unpack g in
  if directed then
    forth ← leads_to edf src dst n1 n2;
    if (forth : bool) then Ok true else Ok false
  else
    forth ← leads_to edf src dst n1 n2;
    if (forth : bool) then Ok true
    else
      back ← leads_to edf src dst n2 n1;
      if (back : bool) then Ok true else Ok false.

(** ** ClusterStore, CollapseTraversal, GraphNormalizer *)

Section Collapse.

(** What [re.compile] makes of a pattern outside the fragment that
    [Re.parse] reads; nothing is assumed about it. *)
Variable re_other : string → res (string → bool).

(** [re.compile(pat)], as the function [s ↦ pattern.search(s) is not None] *)
Definition re_compile (pat : string) : res (string → bool) :=
  match Re.parse pat with
  | Re.Parsed r => Ok (Re.search r)
  | Re.SyntaxError => Raise ReError
  | Re.Unmodelled => re_other pat
  end.

(** [series.str.contains(pat, na=False)], on a Series of strings *)
Definition str_contains (s : list string) (pat : string) : res (list bool) :=
  found ← re_compile pat;
  Ok (found <$> s).

Definition get_cluster_store_keys (ndf : DataFrame) (node : value) : res (list bool) :=
  let node := wrap_key node in
  keys ← df_col ndf COLLAPSE_NODE;
  str_contains (astype_str keys) node.

Definition in_cluster_store_keys (ndf : DataFrame) (node : value) : res bool :=
  mask ← get_cluster_store_keys ndf node;
  Ok (existsb id mask).

Definition melt (ndf : DataFrame) (node : value) : res string :=
  mask ← get_cluster_store_keys ndf node;
  let rdf := df_mask ndf mask in
  let topkey := wrap_key node in
  if negb (df_empty rdf) then
    keys ← df_col rdf COLLAPSE_NODE;
    let topkey := foldl (λ topkey key, topkey +:+ " " +:+ py_str key) topkey keys in
    Ok (reduce_key topkey)
  else Ok topkey.

Definition get_new_node_name (ndf : DataFrame) (parent child : value) : res string :=
  ckey ← in_cluster_store_keys ndf child;
  pkey ← in_cluster_store_keys ndf parent;
  new_parent_name ←
    (if ckey && pkey then
       new_parent_name ← melt ndf child;
       Ok (new_parent_name +:+ " " +:+ wrap_key parent)
     else
       new_parent_name ← melt ndf parent;
       Ok (new_parent_name +:+ " " +:+ wrap_key child));
  Ok (reduce_key new_parent_name).

Definition collapse_nodes_and_edges (g : Plottable) (parent child : value)
  : res Plottable :=
  let '(ndf, edf, src, dst, node) := unpack g in
  new_parent_name ← get_new_node_name ndf parent child;
  ids ← df_col ndf node;
  ndf ← loc_set ndf (series_eq ids parent) COLLAPSE_NODE (of_str new_parent_name);
  ids ← df_col ndf node;
  ndf ← loc_set ndf (series_eq ids child) COLLAPSE_NODE (of_str new_parent_name);
  s ← df_col edf src;
  edf ← loc_set edf (series_eq s parent) COLLAPSE_SRC (of_str new_parent_name);
  d ← df_col edf dst;
  edf ← loc_set edf (series_eq d parent) COLLAPSE_DST (of_str new_parent_name);
  s ← df_col edf src;
  edf ← loc_set edf (series_eq s child) COLLAPSE_SRC (of_str new_parent_name);
  d ← df_col edf dst;
  edf ← loc_set edf (series_eq d child) COLLAPSE_DST (of_str new_parent_name);
  Ok (set_nodes (set_edges g edf) ndf).

Definition has_property (g : Plottable) (ref_node attribute : value) (column : string)
  : res bool :=
  let '(ndf, edf, src, dst, node) := unpack g in
  let ref_node := unwrap_key ref_node in
  vals ← df_col ndf column;
  ids ← df_col (df_mask ndf (series_eq vals attribute)) node;
  Ok (existsb (λ v, py_eq v (of_str ref_node)) ids).

Definition check_default_columns_present_and_coerce_to_string (g : Plottable)
  : res Plottable :=
  let '(ndf, edf, src, dst, node) := unpack g in
  g ← (if decide (COLLAPSE_NODE ∉ columns ndf) then
         let ndf := set_column ndf COLLAPSE_NODE (of_str DEFAULT_VAL) in
         ids ← df_col ndf node;
         let ndf := set_series ndf node (of_str <$> astype_str ids) in
         ids ← df_col ndf node;
         _ ← first_value ids;
         Ok (set_nodes g ndf)
       else Ok g);
  if decide (COLLAPSE_SRC ∉ columns edf) then
    let edf := set_column edf COLLAPSE_SRC (of_str DEFAULT_VAL) in
    let edf := set_column edf COLLAPSE_DST (of_str DEFAULT_VAL) in
    s ← df_col edf src;
    let edf := set_series edf src (of_str <$> astype_str s) in
    d ← df_col edf dst;
    let edf := set_series edf dst (of_str <$> astype_str d) in
    s ← df_col edf src;
    _ ← first_value s;
    Ok (set_edges g edf)
  else Ok g.

(** The state a traversal threads through its calls: the graph, whose
    tables are updated in place, and the [seen] dict. *)
Definition walk : Type := Plottable * gmap string Z.

(** The body of [collapse(g, child, parent, attribute, column, seen)];
    [self] is what its recursive calls go to. *)
Definition collapse_call
  (self : Plottable → value → value → value → string → gmap string Z → res walk)
  (g : Plottable) (child parent attribute : value) (column : string)
  (seen : gmap string Z) : res walk :=
  g ← check_default_columns_present_and_coerce_to_string g;
  let compute_key := py_str parent +:+ " " +:+ py_str child in
  if decide (is_Some (seen !! compute_key)) then Ok (g, seen)
  else
    parent_has ← has_property g parent attribute column;
    if (parent_has : bool) then
      let tkey := py_str parent +:+ " " +:+ py_str parent in
      '(g, seen) ←
        (if negb (str_in tkey compute_key) then
           let seen := <[tkey := 1%Z]> seen in
           g ← collapse_nodes_and_edges g parent parent;
           Ok (g, seen)
         else Ok (g, seen)) : res walk;
      child_has ← has_property g child attribute column;
      if (child_has : bool) then
        g ← collapse_nodes_and_edges g parent child;
        let seen := <[compute_key := 1%Z]> seen in
        es ← get_edges_of_node g parent true 1;
        for_each (λ (w : walk) e, self w.1 e child attribute column w.2) (g, seen) es
      else Ok (g, seen)
    else
      es ← get_edges_of_node g child true 1;
      for_each (λ (w : walk) e, self w.1 e child attribute column w.2) (g, seen) es.

(** [collapse], run with room for [depth] nested calls: one call more
    and the interpreter raises [RecursionError]. *)
Fixpoint collapse (depth : nat) : Plottable → value → value → value → string →
                                  gmap string Z → res walk :=
  match depth with
  | O => λ _ _ _ _ _ _, Raise RecursionError
  | S depth => collapse_call (collapse depth)
  end.

Definition normalize_graph (g : Plottable) (self_edges unwrap remove_collapse : bool)
  : res Plottable :=
  let '(ndf, edf, src, dst, node) := unpack g in
  keys ← df_col ndf COLLAPSE_NODE;
  ndf ← loc_copy ndf (series_ne keys (of_str DEFAULT_VAL)) node COLLAPSE_NODE;
  let ndf := df_drop_duplicates ndf in
  keys ← df_col edf COLLAPSE_SRC;
  edf ← loc_copy edf (series_ne keys (of_str DEFAULT_VAL)) src COLLAPSE_SRC;
  keys ← df_col edf COLLAPSE_DST;
  edf ← loc_copy edf (series_ne keys (of_str DEFAULT_VAL)) dst COLLAPSE_DST;
  let edf := if negb self_edges then df_drop_duplicates edf else edf in
  '(ndf, edf) ←
    (if unwrap then
       ids ← df_col ndf node;
       let ndf := set_series ndf node ((λ x, of_str (unwrap_key (of_str x))) <$> astype_str ids) in
       s ← df_col edf src;
       let edf := set_series edf src ((λ x, of_str (unwrap_key (of_str x))) <$> astype_str s) in
       d ← df_col edf dst;
       let edf := set_series edf dst ((λ x, of_str (unwrap_key (of_str x))) <$> astype_str d) in
       Ok (ndf, edf)
     else Ok (ndf, edf)) : res (DataFrame * DataFrame);
  '(ndf, edf) ←
    (if remove_collapse then
       ndf ← df_drop ndf [COLLAPSE_NODE];
       edf ← df_drop edf [COLLAPSE_SRC; COLLAPSE_DST];
       Ok (ndf, edf)
     else Ok (ndf, edf)) : res (DataFrame * DataFrame);
  Ok (set_edges (set_nodes g ndf) edf).

End Collapse.

(** ** What the properties are stated with *)

(** The distinct roles of the column labels of a graph: the identity
    columns are not the pending-key columns. *)
Record wf_labels (g : Plottable) : Prop := {
  wf_node : _node g ≠ COLLAPSE_NODE;
  wf_source_src : _source g ≠ COLLAPSE_SRC;
  wf_source_dst : _source g ≠ COLLAPSE_DST;
  wf_destination_src : _destination g ≠ COLLAPSE_SRC;
  wf_destination_dst : _destination g ≠ COLLAPSE_DST
}.

(** The identity columns are there. *)
Record has_id_columns (g : Plottable) : Prop := {
  has_node : _node g ∈ columns (_nodes g);
  has_source : _source g ∈ columns (_edges g);
  has_destination : _destination g ∈ columns (_edges g)
}.


(** Move a pending key that is not the default into the identity cell. *)
Definition commit (target source : string) (r : row) : row :=
  if negb (py_eq (r !! source) (of_str DEFAULT_VAL))
  then set_cell target (r !! source) r else r.

(** Strip the delimiters from an identity cell. *)
Definition unwrap_cell (label : string) (r : row) : row :=
  set_cell label (of_str (unwrap_key (of_str (py_str (r !! label))))) r.

(** The tables [normalize_graph] returns when the pending columns are kept. *)
Definition committed_nodes (g : Plottable) (unwrap : bool) : DataFrame :=
  let rs := drop_duplicates (commit (_node g) COLLAPSE_NODE <$> rows (_nodes g)) in
  mkDF (add_column (_node g) (columns (_nodes g)))
       (if unwrap then unwrap_cell (_node g) <$> rs else rs).

Definition committed_edges (g : Plottable) (self_edges unwrap : bool) : DataFrame :=
  let rs := commit (_destination g) COLLAPSE_DST
              <$> (commit (_source g) COLLAPSE_SRC <$> rows (_edges g)) in
  let rs := if negb self_edges then drop_duplicates rs else rs in
  mkDF (add_column (_destination g) (add_column (_source g) (columns (_edges g))))
       (if unwrap
        then unwrap_cell (_destination g) <$> (unwrap_cell (_source g) <$> rs)
        else rs).

Record has_pending_columns (g : Plottable) : Prop := {
  has_collapse_node : COLLAPSE_NODE ∈ columns (_nodes g);
  has_collapse_src : COLLAPSE_SRC ∈ columns (_edges g);
  has_collapse_dst : COLLAPSE_DST ∈ columns (_edges g)
}.

Global Instance has_pending_columns_dec (g : Plottable) : Decision (has_pending_columns g).
Proof.
  destruct (decide (COLLAPSE_NODE ∈ columns (_nodes g)));
    [destruct (decide (COLLAPSE_SRC ∈ columns (_edges g)));
     [destruct (decide (COLLAPSE_DST ∈ columns (_edges g))); [left; by constructor|]|]|];
    right; by intros [].
Defined.

(** The pending keys of the node rows whose identity is [id]. *)
Definition pending_keys (g : Plottable) (id : value) : list value :=
  (λ r : row, r !! COLLAPSE_NODE)
    <$> filter (λ r : row, Is_true (py_eq (r !! _node g) id)) (rows (_nodes g)).

(** Two rows that agree on every label outside [labels]. *)
Definition same_outside (labels : list string) (r r' : row) : Prop :=
  ∀ l, l ∉ labels → r' !! l = r !! l.

(** Two tables with the same columns and as many rows, that agree row by
    row outside [labels]. *)
Definition same_table_outside (labels : list string) (df df' : DataFrame) : Prop :=
  columns df' = columns df ∧ Forall2 (same_outside labels) (rows df) (rows df').

(** Two graphs that differ in pending keys only. *)
Definition only_pending_differ (g g' : Plottable) : Prop :=
  (_node g', _source g', _destination g') = (_node g, _source g, _destination g)
  ∧ same_table_outside [COLLAPSE_NODE] (_nodes g) (_nodes g')
  ∧ same_table_outside [COLLAPSE_SRC; COLLAPSE_DST] (_edges g) (_edges g').

(** The characters [re] gives a meaning to; a pattern without any of them
    is a literal. *)
Definition is_meta (c : ascii) : bool :=
  bool_decide (c ∈ ["("; ")"; "|"; "*"; "+"; "?"; "."; "["; "]"; "{"; "}"; "\"; "^"; "$"]%char).

Fixpoint literal (pat : string) : bool :=
  match pat with
  | "" => true
  | String c pat' => negb (is_meta c) && literal pat'
  end.

(** The tokens of a key as [np.unique] hands them back: without their
    trailing NUL characters, and none that is empty once [reduce_key] has
    joined them and the key is split again. *)
Definition np_tokens (key : string) : list string :=
  filter (λ t, t ≠ "") (rstrip_nul <$> split key).

(** The edge table has no row and lacks a pending column: pandas refuses
    the first assignment to that column. *)
Definition no_edge_index (g : Plottable) : Prop :=
  rows (_edges g) = []
  ∧ (COLLAPSE_SRC ∉ columns (_edges g) ∨ COLLAPSE_DST ∉ columns (_edges g)).

Global Instance no_edge_index_dec (g : Plottable) : Decision (no_edge_index g).
Proof. unfold no_edge_index. apply _. Defined.

(** The regular expression a literal pattern is read as. *)
Fixpoint lit (t : string) : Re.regex :=
  match t with
  | "" => Re.Eps
  | String c t' => Re.Cat (Re.Chr c) (lit t')
  end.

(** A token as [wrap_key] makes it of a text without delimiter. *)
Definition wrapped (t : string) : Prop :=
  ∃ x, t = WRAP +:+ x +:+ WRAP ∧ str_in WRAP x = false.

(** A key whose tokens hold no delimiter, as the default does, or are
    wrapped. *)
Definition well_wrapped (key : string) : Prop :=
  Forall (λ t, str_in WRAP t = false ∨ wrapped t) (split key).

(** What [check_default_columns_present_and_coerce_to_string] makes of a
    row of a table without pending column: an identity cell becomes its
    text, a pending cell the default. *)
Definition coerce_cell (l : string) (r : row) : row := set_cell l (of_str (py_str (r !! l))) r.
Definition default_cell (l : string) (r : row) : row := set_cell l (of_str DEFAULT_VAL) r.

(** The tables [check_default_columns_present_and_coerce_to_string] makes
    of tables without pending columns. *)
Definition prepared_nodes (g : Plottable) : DataFrame :=
  mkDF (add_column COLLAPSE_NODE (columns (_nodes g)))
       ((coerce_cell (_node g) ∘ default_cell COLLAPSE_NODE) <$> rows (_nodes g)).

Definition prepared_edges (g : Plottable) : DataFrame :=
  mkDF (add_column COLLAPSE_DST (add_column COLLAPSE_SRC (columns (_edges g))))
       ((coerce_cell (_destination g) ∘ coerce_cell (_source g)
         ∘ default_cell COLLAPSE_DST ∘ default_cell COLLAPSE_SRC) <$> rows (_edges g)).

(** [df.drop(columns=labels)], on a table that has the labels. *)
Definition dropped (labels : list string) (df : DataFrame) : DataFrame :=
  mkDF (filter (λ c, c ∉ labels) (columns df))
       ((λ r : row, foldr delete r labels) <$> rows df).

(** ** Example graphs *)

Module Examples.

Definition cells (l : list (string * string)) : row :=
  list_to_map ((λ p, (p.1, Str p.2)) <$> l).

(** A graph as it comes from the graph handle: nodes with a [type];
    no pending-key columns yet. *)
Definition graph (nodes edges : list (string * string)) : Plottable :=
  mkPlottable
    (mkDF ["node"; "type"] ((λ p, cells [("node", p.1); ("type", p.2)]) <$> nodes))
    (mkDF ["src"; "dst"] ((λ p, cells [("src", p.1); ("dst", p.2)]) <$> edges))
    "src" "dst" "node".

(** A graph with its pending-key columns: nodes are (identity, type,
    pending key), edges are (source, destination, pending keys). *)
Definition pending_graph (nodes : list (string * string * string))
  (edges : list (string * string * string * string)) : Plottable :=
  mkPlottable
    (mkDF ["node"; "type"; COLLAPSE_NODE]
       ((λ p, cells [("node", p.1.1); ("type", p.1.2); (COLLAPSE_NODE, p.2)]) <$> nodes))
    (mkDF ["src"; "dst"; COLLAPSE_SRC; COLLAPSE_DST]
       ((λ p, cells [("src", p.1.1.1); ("dst", p.1.1.2);
                     (COLLAPSE_SRC, p.1.2); (COLLAPSE_DST, p.2)]) <$> edges))
    "src" "dst" "node".

(** A -> B -> A, no node of type x *)
Definition two_cycle : Plottable :=
  graph [("A", "y"); ("B", "y")] [("A", "B"); ("B", "A")].

(** A -> B -> C, all of type x *)
Definition chain : Plottable :=
  graph [("A", "x"); ("B", "x"); ("C", "x")] [("A", "B"); ("B", "C")].

(** A and B merged, C left alone *)
Definition merged_pair : Plottable :=
  pending_graph
    [("A", "x", "~A~ ~B~"); ("B", "x", "~A~ ~B~"); ("C", "y", "None")]
    [("A", "B", "~A~ ~B~", "~A~ ~B~"); ("B", "C", "~A~ ~B~", "None")].

(** Two nodes whose identities differ by delimiters only *)
Definition delimited_names : Plottable :=
  pending_graph
    [("A", "x", "None"); ("~A~", "x", "None")]
    [("A", "B", "None", "None"); ("~A~", "B", "None", "None")].

(** A node whose identity is the text of the key of two merged nodes *)
Definition key_as_name : Plottable :=
  pending_graph
    [("A", "x", "~A~ ~B~"); ("B", "x", "~A~ ~B~"); ("~A~ ~B~", "x", "None")]
    [("A", "C", "~A~ ~B~", "None"); ("~A~ ~B~", "C", "None", "None")].

(** One node with its pending key, and an edge table that has neither
    rows nor pending columns *)
Definition no_edges : Plottable :=
  mkPlottable
    (mkDF ["node"; "type"; COLLAPSE_NODE]
          [cells [("node", "A"); ("type", "x"); (COLLAPSE_NODE, "None")]])
    (mkDF ["src"; "dst"] [])
    "src" "dst" "node".

(** Two distinct tokens, the first ending in a NUL character *)
Definition a_nul : string := String "a" (String NUL "").
Definition nul_key : string := a_nul +:+ " a".

(** No regular expression outside the modelled fragment is needed. *)
Definition no_other : string → res (string → bool) := λ _, Raise ReError.

End Examples.

Module Prepared.
Import Examples.

(** [two_cycle], once [collapse] has added the pending-key columns *)
Definition two_cycle : Plottable :=
  pending_graph [("A", "y", "None"); ("B", "y", "None")]
                [("A", "B", "None", "None"); ("B", "A", "None", "None")].

(** Two nodes; the identity of the second ends in the delimiter. *)
Definition delimiter_in_name : Plottable :=
  pending_graph [("B", "x", "None"); ("B~", "x", "None")]
                [("B", "B~", "None", "None")].

(** Two nodes; the identity of the second holds a dot. *)
Definition dot_in_name : Plottable :=
  pending_graph [("111", "x", "None"); ("1.1", "x", "None")]
                [("111", "1.1", "None", "None")].

(** A -> B, no node of type x *)
Definition single_edge : Plottable :=
  pending_graph [("A", "y", "None"); ("B", "y", "None")] [("A", "B", "None", "None")].

End Prepared.

(** * Properties *)

(** ** Examples from the docstrings *)

Example reduce_key_doc : reduce_key "1 1 2 1 2 3" = "1 2 3".
Proof. reflexivity. Qed.

Example wrap_key_int : wrap_key (Some (Int 42)) = "~42~".
Proof. reflexivity. Qed.

Example unwrap_key_pair : unwrap_key (Some (Str "~a~ ~b~")) = "a b".
Proof. reflexivity. Qed.

(** ** Strings *)

Lemma append_empty_r (s : string) : s +:+ "" = s.
Proof.
  induction s as [|c s IH]; [done|].
  change (String c s +:+ "") with (String c (s +:+ "")). by rewrite IH.
Qed.

Lemma str_in_cons (sub : string) (c : ascii) (s : string) :
  str_in sub (String c s) = String.prefix sub (String c s) || str_in sub s.
Proof. done. Qed.

Lemma prefix_wrap (c : ascii) (s : string) :
  String.prefix WRAP (String c s) = bool_decide (c = "~"%char).
Proof.
  unfold WRAP.
  change (String.prefix "~" (String c s))
    with (match ascii_dec "~" c with left _ => String.prefix "" s | right _ => false end).
  destruct (ascii_dec "~" c) as [<-|Hne].
  - by destruct s.
  - rewrite bool_decide_false; [done|]. congruence.
Qed.

Lemma str_in_wrap_cons (c : ascii) (s : string) :
  str_in WRAP (String c s) = bool_decide (c = "~"%char) || str_in WRAP s.
Proof. by rewrite str_in_cons, prefix_wrap. Qed.

Lemma replace_go_wrap_cons (c : ascii) (s : string) :
  replace_go WRAP "" 0 (String c s) =
  if bool_decide (c = "~"%char) then replace_go WRAP "" 0 s
  else String c (replace_go WRAP "" 0 s).
Proof.
  change (replace_go WRAP "" 0 (String c s))
    with (if String.prefix WRAP (String c s)
          then "" +:+ replace_go WRAP "" 0 s
          else String c (replace_go WRAP "" 0 s)).
  by rewrite prefix_wrap.
Qed.

Lemma replace_go_wrap_app (s t : string) :
  replace_go WRAP "" 0 (s +:+ t) = replace_go WRAP "" 0 s +:+ replace_go WRAP "" 0 t.
Proof.
  induction s as [|c s IH]; [done|].
  change (String c s +:+ t) with (String c (s +:+ t)).
  rewrite !replace_go_wrap_cons, IH. by case_bool_decide.
Qed.

Lemma replace_go_wrap_id (s : string) :
  str_in WRAP s = false → replace_go WRAP "" 0 s = s.
Proof.
  induction s as [|c s IH]; [done|].
  rewrite str_in_wrap_cons, replace_go_wrap_cons.
  intros [Hc Hs]%orb_false_elim. rewrite Hc. f_equal. by apply IH.
Qed.

Lemma str_in_replace_go_wrap (s : string) :
  str_in WRAP (replace_go WRAP "" 0 s) = false.
Proof.
  induction s as [|c s IH]; [done|].
  rewrite replace_go_wrap_cons. case_bool_decide as Hc; [done|].
  rewrite str_in_wrap_cons, IH. by rewrite bool_decide_false.
Qed.

Lemma unwrap_key_idemp (x : value) : unwrap_key (of_str (unwrap_key x)) = unwrap_key x.
Proof. apply replace_go_wrap_id, str_in_replace_go_wrap. Qed.

Lemma wrap_key_has_wrap (x : value) : str_in WRAP (wrap_key x) = true.
Proof.
  unfold wrap_key. destruct (str_in WRAP (py_str x)) eqn:Hin; [done|].
  change (str_in WRAP (String "~" (py_str x +:+ WRAP)) = true).
  by rewrite str_in_wrap_cons.
Qed.

(** ** Sorting *)

Lemma str_lt_trans (s t u : string) : str_lt s t → str_lt t u → str_lt s u.
Proof.
  unfold str_lt. intros Hst Htu.
  assert (String.le s t) as Hle1 by (unfold String.le, String.leb; by rewrite Hst).
  assert (String.le t u) as Hle2 by (unfold String.le, String.leb; by rewrite Htu).
  pose proof (transitivity Hle1 Hle2) as Hle. unfold String.le, String.leb in Hle.
  destruct (String.compare s u) eqn:Hsu; [|done|done].
  apply String.compare_eq_iff in Hsu as ->.
  rewrite String.compare_antisym, Htu in Hst. done.
Qed.

Lemma str_lt_irrefl (s : string) : ¬ str_lt s s.
Proof.
  unfold str_lt. intros H. pose proof (String.compare_antisym s s) as Ha.
  rewrite H in Ha. done.
Qed.

Lemma elem_of_insert_unique (x y : string) (l : list string) :
  y ∈ insert_unique x l ↔ y = x ∨ y ∈ l.
Proof.
  induction l as [|z l IH]; cbn.
  - by rewrite elem_of_cons.
  - destruct (String.compare x z) eqn:Hc.
    + apply String.compare_eq_iff in Hc as ->. rewrite elem_of_cons. tauto.
    + by rewrite elem_of_cons.
    + rewrite !elem_of_cons, IH. tauto.
Qed.

Lemma insert_unique_sorted (x : string) (l : list string) :
  StronglySorted str_lt l → StronglySorted str_lt (insert_unique x l).
Proof.
  induction 1 as [|z l Hl IH Hz]; cbn.
  - repeat constructor.
  - destruct (String.compare x z) eqn:Hc.
    + by constructor.
    + constructor; [by constructor|]. constructor; [done|].
      eapply Forall_impl; [exact Hz|]. intros u Hu. by eapply str_lt_trans.
    + constructor; [done|]. apply Forall_forall. intros u Hu.
      apply elem_of_insert_unique in Hu as [->|Hu].
      * unfold str_lt. by rewrite String.compare_antisym, Hc.
      * by eapply Forall_forall in Hz.
Qed.

Lemma sort_unique_sorted (l : list string) : StronglySorted str_lt (sort_unique l).
Proof.
  induction l as [|x l IH]; cbn; [constructor|]. by apply insert_unique_sorted.
Qed.

Lemma elem_of_sort_unique (x : string) (l : list string) : x ∈ sort_unique l ↔ x ∈ l.
Proof.
  induction l as [|y l IH]; cbn; [done|].
  rewrite elem_of_insert_unique, elem_of_cons, IH. done.
Qed.

Lemma np_unique_sorted (l : list string) : StronglySorted str_lt (np_unique l).
Proof. apply sort_unique_sorted. Qed.

Lemma elem_of_np_unique (x : string) (l : list string) :
  x ∈ np_unique l ↔ ∃ t, t ∈ l ∧ x = rstrip_nul t.
Proof.
  unfold np_unique. rewrite elem_of_sort_unique, list_elem_of_fmap.
  split; intros (t & H1 & H2); exists t; done.
Qed.

Lemma sorted_str_lt_NoDup (l : list string) : StronglySorted str_lt l → NoDup l.
Proof.
  induction 1 as [|x l Hl IH Hx]; constructor; [|done].
  intros Hin. eapply Forall_forall in Hx; [|done]. by apply str_lt_irrefl in Hx.
Qed.

Lemma sorted_unique_ext (l1 l2 : list string) :
  StronglySorted str_lt l1 → StronglySorted str_lt l2 →
  (∀ x, x ∈ l1 ↔ x ∈ l2) → l1 = l2.
Proof.
  intros H1. revert l2.
  induction H1 as [|x l1 Hl1 IH Hx]; intros l2 H2 Hext.
  - destruct l2 as [|y l2]; [done|].
    exfalso. eapply not_elem_of_nil, Hext. left.
  - destruct H2 as [|y l2 Hl2 Hy].
    { exfalso. eapply not_elem_of_nil, Hext. left. }
    assert (x = y) as <-.
    { destruct (decide (x = y)) as [|Hne]; [done|]. exfalso.
      assert (x ∈ l2) as Hxl2.
      { pose proof (proj1 (Hext x) (list_elem_of_here _ _)) as Hin.
        apply elem_of_cons in Hin as [?|?]; [done|done]. }
      assert (y ∈ l1) as Hyl1.
      { pose proof (proj2 (Hext y) (list_elem_of_here _ _)) as Hin.
        apply elem_of_cons in Hin as [?|?]; [congruence|done]. }
      eapply Forall_forall in Hx; [|exact Hyl1].
      eapply Forall_forall in Hy; [|exact Hxl2].
      eapply str_lt_irrefl, str_lt_trans; [exact Hx|exact Hy]. }
    f_equal. apply IH; [done|]. intros z. split; intros Hz.
    + pose proof (proj1 (Hext z) (list_elem_of_further _ _ _ Hz)) as Hin.
      apply elem_of_cons in Hin as [->|?]; [|done].
      eapply Forall_forall in Hx; [|exact Hz]. by apply str_lt_irrefl in Hx.
    + pose proof (proj2 (Hext z) (list_elem_of_further _ _ _ Hz)) as Hin.
      apply elem_of_cons in Hin as [->|?]; [|done].
      eapply Forall_forall in Hy; [|exact Hz]. by apply str_lt_irrefl in Hy.
Qed.

Lemma reduce_key_ext (key key' : string) :
  (∀ t, t ∈ split key ↔ t ∈ split key') → reduce_key key = reduce_key key'.
Proof.
  intros Hext. unfold reduce_key. f_equal.
  apply sorted_unique_ext; [apply np_unique_sorted..|].
  intros t. rewrite !elem_of_np_unique.
  split; intros (t0 & Ht0 & ->); exists t0; (split; [by apply Hext|done]).
Qed.

(** ** ClusterKeyCodec *)

(** C8. Decoding an encoded identity gives back its text when the text
    holds no delimiter [~], and encoding an encoded identity changes
    nothing. *)
Theorem wrap_key_round_trip_and_idempotent :
  (∀ x : value, str_in WRAP (py_str x) = false →
                unwrap_key (of_str (wrap_key x)) = py_str x)
  ∧ (∀ x : value, wrap_key (of_str (wrap_key x)) = wrap_key x).
Proof.
  split.
  - intros x Hx. unfold wrap_key, unwrap_key. rewrite Hx.
    change (replace_go WRAP "" 0 (WRAP +:+ py_str x +:+ WRAP) = py_str x).
    rewrite !replace_go_wrap_app, (replace_go_wrap_id (py_str x)) by done.
    change (replace_go WRAP "" 0 WRAP) with "".
    change ("" +:+ py_str x +:+ "") with (py_str x +:+ ""). apply append_empty_r.
  - intros x. pose proof (wrap_key_has_wrap x) as Hw.
    unfold wrap_key at 1. change (py_str (of_str (wrap_key x))) with (wrap_key x).
    by rewrite Hw.
Qed.

Lemma wrap_key_round_trip_and_idempotent_witness :
  str_in WRAP (py_str (Some (Int 42))) = false
  ∧ unwrap_key (of_str (wrap_key (Some (Int 42)))) = py_str (Some (Int 42))
  ∧ wrap_key (of_str (wrap_key (of_str "~a~"))) = wrap_key (of_str "~a~").
Proof.
  split; [reflexivity|]. split.
  - apply (proj1 wrap_key_round_trip_and_idempotent). reflexivity.
  - apply (proj2 wrap_key_round_trip_and_idempotent).
Defined.

(** ** Tokens of a key *)

Lemma rev_app_rev_app (s a b : string) :
  String.rev_app (String.rev_app s a) b = String.rev_app a (s +:+ b).
Proof. revert a b. induction s as [|c s IH]; intros a b; [done|]. cbn. by rewrite IH. Qed.

Lemma rev_involutive (s : string) : String.rev (String.rev s) = s.
Proof. unfold String.rev. rewrite rev_app_rev_app. cbn. apply append_empty_r. Qed.

Lemma no_space_rev_app (s a : string) :
  no_space (String.rev_app s a) = no_space s && no_space a.
Proof.
  revert a. induction s as [|c s IH]; intros a; [done|]. cbn. rewrite IH. cbn.
  destruct (is_space c), (no_space s); done.
Qed.

Lemma rev_app_not_empty (s a : string) : s ≠ "" ∨ a ≠ "" → String.rev_app s a ≠ "".
Proof.
  revert a. induction s as [|c s IH]; intros a [Hs|Ha]; try done; cbn; apply IH; by right.
Qed.

Lemma flush_token (cur : string) : no_space cur = true → Forall token (flush cur).
Proof.
  intros Hcur. destruct cur as [|c cur]; [constructor|]. repeat constructor.
  - apply rev_app_not_empty. by left.
  - unfold String.rev. by rewrite no_space_rev_app, Hcur.
Qed.

Lemma split_go_tokens (cur s : string) :
  no_space cur = true → Forall token (split_go cur s).
Proof.
  revert cur. induction s as [|c s IH]; intros cur Hcur; cbn.
  - by apply flush_token.
  - destruct (is_space c) eqn:Hc.
    + apply Forall_app. split; [by apply flush_token|by apply IH].
    + apply IH. cbn. by rewrite Hc.
Qed.

Lemma split_go_token_app (cur t s : string) :
  no_space t = true → split_go cur (t +:+ s) = split_go (String.rev_app t cur) s.
Proof.
  revert cur. induction t as [|c t IH]; intros cur Ht; [done|].
  cbn in Ht. apply andb_prop in Ht as [Hc Ht].
  change (String c t +:+ s) with (String c (t +:+ s)). cbn.
  destruct (is_space c); [done|]. by apply IH.
Qed.

Lemma flush_rev_token (t : string) : token t → flush (String.rev_app t "") = [t].
Proof.
  intros [Hne _]. pose proof (rev_involutive t) as Hrev. unfold String.rev in Hrev.
  unfold flush. destruct (String.rev_app t "") eqn:Hr.
  - by destruct (rev_app_not_empty t "" (or_introl Hne)).
  - unfold String.rev. by rewrite Hrev.
Qed.

(** Splitting what [join] made of tokens gives the tokens back. *)
Lemma split_join_tokens (l : list string) : Forall token l → split (join " " l) = l.
Proof.
  unfold split, join. induction 1 as [|t l Ht Hl IH]; [done|].
  destruct l as [|u l].
  - cbn. rewrite <- (append_empty_r t) at 1.
    rewrite split_go_token_app by apply Ht. cbn. by apply flush_rev_token.
  - change (String.concat " " (t :: u :: l))
      with (t +:+ String " " (String.concat " " (u :: l))).
    rewrite split_go_token_app by apply Ht.
    change (split_go (String.rev_app t "") (String " " (String.concat " " (u :: l))))
      with ((flush (String.rev_app t "") ++ split_go "" (String.concat " " (u :: l)))%list).
    rewrite flush_rev_token by done. by rewrite IH.
Qed.

Lemma split_go_app_space (cur a b : string) :
  split_go cur (a +:+ " " +:+ b) = (split_go cur a ++ split b)%list.
Proof.
  revert cur. induction a as [|c a IH]; intros cur.
  - done.
  - change (String c a +:+ " " +:+ b) with (String c (a +:+ " " +:+ b)).
    cbn [split_go]. destruct (is_space c); rewrite IH; [|done].
    by rewrite (assoc_L (++)).
Qed.

Lemma split_app_space (a b : string) : split (a +:+ " " +:+ b) = (split a ++ split b)%list.
Proof. apply split_go_app_space. Qed.

Lemma filter_all {A : Type} (P : A → Prop) `{∀ x, Decision (P x)} (l : list A) :
  Forall P l → filter P l = l.
Proof.
  induction 1 as [|x l Hx _ IH]; [done|]. by rewrite filter_cons_True, IH.
Qed.

Lemma split_no_space (t : string) :
  no_space t = true → split t = filter (λ t, t ≠ "") [t].
Proof.
  intros Ht. destruct (decide (t = "")) as [->|Hne]; [done|].
  rewrite filter_cons_True by done.
  apply (split_join_tokens [t]). by apply Forall_cons_2; [|apply Forall_nil_2].
Qed.

(** Splitting what [join] made of texts without space gives back those
    that are not empty. *)
Lemma split_join_no_space (l : list string) :
  Forall (λ t, no_space t = true) l → split (join " " l) = filter (λ t, t ≠ "") l.
Proof.
  unfold join. induction 1 as [|t l Ht Hl IH]; [done|].
  destruct l as [|u l]; [by apply split_no_space|].
  change (String.concat " " (t :: u :: l))
    with (t +:+ " " +:+ String.concat " " (u :: l)).
  rewrite split_app_space, IH, split_no_space by done.
  by rewrite <- filter_app.
Qed.

(** ** Strs read back from numpy *)

Lemma rstrip_nul_cons (c : ascii) (s : string) :
  rstrip_nul (String c s)
  = if decide (rstrip_nul s = "")
    then if decide (c = NUL) then "" else String c ""
    else String c (rstrip_nul s).
Proof. cbn [rstrip_nul]. by destruct (rstrip_nul s). Qed.

Lemma rstrip_nul_idemp (s : string) : rstrip_nul (rstrip_nul s) = rstrip_nul s.
Proof.
  induction s as [|c s IH]; [done|]. rewrite rstrip_nul_cons.
  destruct (decide (rstrip_nul s = "")) as [He|Hne].
  - destruct (decide (c = NUL)) as [->|Hc]; [done|].
    rewrite rstrip_nul_cons. cbn [rstrip_nul]. by rewrite decide_True, decide_False.
  - rewrite rstrip_nul_cons, IH. by rewrite decide_False.
Qed.

Lemma no_space_rstrip_nul (s : string) : no_space s = true → no_space (rstrip_nul s) = true.
Proof.
  induction s as [|c s IH]; [done|]. cbn [no_space]. intros [Hc Hs]%andb_prop.
  rewrite rstrip_nul_cons. repeat case_decide; cbn [no_space]; rewrite ?Hc, ?IH; done.
Qed.

(** A str that ends in another character than NUL is read back as it is. *)
Lemma rstrip_nul_last (s : string) (c : ascii) :
  c ≠ NUL → rstrip_nul (s +:+ String c "") = s +:+ String c "".
Proof.
  intros Hc. induction s as [|d s IH].
  - change ("" +:+ String c "") with (String c ""). rewrite rstrip_nul_cons.
    cbn [rstrip_nul]. by rewrite decide_True, decide_False.
  - change (String d s +:+ String c "") with (String d (s +:+ String c "")).
    rewrite rstrip_nul_cons, IH. rewrite decide_False; [done|]. by destruct s.
Qed.

Lemma str_in_wrap_rstrip_nul (s : string) : str_in WRAP (rstrip_nul s) = str_in WRAP s.
Proof.
  induction s as [|c s IH]; [done|]. rewrite rstrip_nul_cons, (str_in_wrap_cons c s), <- IH.
  destruct (decide (rstrip_nul s = "")) as [->|Hne].
  - destruct (decide (c = NUL)) as [->|Hc]; [done|]. by rewrite str_in_wrap_cons.
  - by rewrite str_in_wrap_cons.
Qed.

Lemma split_no_space_tokens (key : string) : Forall (λ t, no_space t = true) (split key).
Proof.
  eapply Forall_impl; [exact (split_go_tokens "" key eq_refl)|]. by intros t [_ Ht].
Qed.

Lemma StronglySorted_filter {A : Type} (R : relation A) (P : A → Prop)
  `{∀ x, Decision (P x)} (l : list A) :
  StronglySorted R l → StronglySorted R (filter P l).
Proof.
  induction 1 as [|x l Hl IH Hx]; [constructor|]. rewrite filter_cons.
  destruct (decide (P x)); [|done]. constructor; [done|].
  apply Forall_forall. intros y [_ Hy]%list_elem_of_filter.
  by eapply Forall_forall in Hx.
Qed.

Lemma split_reduce_key (key : string) :
  split (reduce_key key) = filter (λ t, t ≠ "") (np_unique (split key)).
Proof.
  apply split_join_no_space. apply Forall_forall. intros t Ht.
  apply elem_of_np_unique in Ht as (t0 & Ht0 & ->). apply no_space_rstrip_nul.
  exact (proj1 (Forall_forall _ _) (split_no_space_tokens key) t0 Ht0).
Qed.

Lemma elem_of_split_reduce_key (t key : string) :
  t ∈ split (reduce_key key) ↔ t ∈ np_tokens key.
Proof.
  rewrite split_reduce_key. unfold np_tokens.
  rewrite !list_elem_of_filter, elem_of_np_unique, list_elem_of_fmap.
  split; intros (Hne & t0 & H1 & H2); (split; [done|]); exists t0; done.
Qed.

Lemma np_tokens_app_space (a b : string) :
  np_tokens (a +:+ " " +:+ b) = (np_tokens a ++ np_tokens b)%list.
Proof. unfold np_tokens. by rewrite split_app_space, fmap_app, filter_app. Qed.

Lemma elem_of_np_tokens (t key : string) :
  t ∈ np_tokens key ↔ t ≠ "" ∧ ∃ t0, t0 ∈ split key ∧ t = rstrip_nul t0.
Proof.
  unfold np_tokens. rewrite list_elem_of_filter, list_elem_of_fmap.
  split; intros (Hne & t0 & H1 & H2); (split; [done|]); exists t0; done.
Qed.

Lemma split_reduce_key_sorted (key : string) : StronglySorted str_lt (split (reduce_key key)).
Proof. rewrite split_reduce_key. apply StronglySorted_filter, np_unique_sorted. Qed.

(** The tokens of a reduced key are read back as they are. *)
Lemma elem_of_np_tokens_reduce_key (t key : string) :
  t ∈ np_tokens (reduce_key key) ↔ t ∈ np_tokens key.
Proof.
  rewrite (elem_of_np_tokens t (reduce_key key)). split.
  - intros (Hne & t0 & Ht0 & ->). apply elem_of_split_reduce_key in Ht0.
    apply elem_of_np_tokens in Ht0 as (_ & t1 & Ht1 & ->).
    rewrite rstrip_nul_idemp in *. apply elem_of_np_tokens. eauto.
  - intros Ht. pose proof Ht as (Hne & t0 & Ht0 & ->)%elem_of_np_tokens.
    split; [done|]. exists (rstrip_nul t0).
    split; [by apply elem_of_split_reduce_key|]. by rewrite rstrip_nul_idemp.
Qed.

(** Two keys that numpy reads the same tokens from reduce to the same key. *)
Lemma reduce_key_np_ext (key key' : string) :
  (∀ t, t ∈ np_tokens key ↔ t ∈ np_tokens key') →
  ("" ∈ rstrip_nul <$> split key ↔ "" ∈ rstrip_nul <$> split key') →
  reduce_key key = reduce_key key'.
Proof.
  intros Hext Hempty. unfold reduce_key. f_equal.
  apply sorted_unique_ext; [apply np_unique_sorted..|].
  intros t. rewrite !elem_of_np_unique.
  destruct (decide (t = "")) as [->|Hne].
  - rewrite !list_elem_of_fmap in Hempty.
    split; intros (t0 & Ht0 & Heq).
    + destruct (proj1 Hempty (ex_intro _ t0 (conj Heq Ht0))) as (t1 & ? & ?). eauto.
    + destruct (proj2 Hempty (ex_intro _ t0 (conj Heq Ht0))) as (t1 & ? & ?). eauto.
  - pose proof (Hext t) as Ht. rewrite !elem_of_np_tokens in Ht. split; intros Hin.
    + by apply Ht.
    + by apply Ht.
Qed.

(** C9. [reduce_key] does not keep the tokens of every key.  It joins,
    with single spaces and in strictly ascending order, what [np.unique]
    hands back, and numpy hands back a token without its trailing NUL
    characters: of the two distinct tokens [a_nul] and ["a"] only ["a"] is
    left.  The result holds the deduplicated tokens of the key when no
    token ends in NUL. *)
Theorem reduce_key_drops_trailing_nul :
  split Examples.nul_key = [Examples.a_nul; "a"]
  ∧ Examples.a_nul ≠ "a"
  ∧ reduce_key Examples.nul_key = "a"
  ∧ (Examples.a_nul ∉ split (reduce_key Examples.nul_key))
  ∧ ∀ key : string,
      ∃ tokens : list string,
        reduce_key key = join " " tokens
        ∧ StronglySorted str_lt tokens
        ∧ NoDup tokens
        ∧ (∀ t, t ∈ tokens ↔ ∃ t0, t0 ∈ split key ∧ t = rstrip_nul t0)
        ∧ (Forall (λ t, rstrip_nul t = t) (split key) →
           (∀ t, t ∈ tokens ↔ t ∈ split key) ∧ split (reduce_key key) = tokens).
Proof.
  split; [reflexivity|]. split; [done|]. split; [reflexivity|].
  split; [by intros [[=]|[]%elem_of_nil]%elem_of_cons|].
  intros key. exists (np_unique (split key)). split; [done|].
  split; [apply np_unique_sorted|].
  split; [apply sorted_str_lt_NoDup, np_unique_sorted|].
  split; [intros t; apply elem_of_np_unique|].
  intros Hfix.
  assert (∀ t, t ∈ np_unique (split key) ↔ t ∈ split key) as Hsame.
  { intros t. rewrite elem_of_np_unique. split.
    - intros (t0 & Ht0 & ->).
      by rewrite (proj1 (Forall_forall _ _) Hfix t0 Ht0).
    - intros Ht. exists t. split; [done|].
      by rewrite (proj1 (Forall_forall _ _) Hfix t Ht). }
  split; [exact Hsame|].
  rewrite split_reduce_key. apply filter_all, Forall_forall. intros t Ht%Hsame.
  pose proof (proj1 (Forall_forall _ _) (split_go_tokens "" key eq_refl) t Ht) as [Hne _].
  done.
Qed.

(** ** Tables *)

Lemma lookup_set_cell (l l' : string) (v : value) (r : row) :
  set_cell l v r !! l' = if decide (l = l') then v else r !! l'.
Proof. unfold set_cell. by rewrite lookup_partial_alter. Qed.

Lemma lookup_set_cell_ne (l l' : string) (v : value) (r : row) :
  l ≠ l' → set_cell l v r !! l' = r !! l'.
Proof. intros. rewrite lookup_set_cell. by case_decide. Qed.

Lemma set_cell_id (l : string) (r : row) : set_cell l (r !! l) r = r.
Proof.
  apply map_eq. intros k. rewrite lookup_set_cell. case_decide; by subst.
Qed.

Lemma elem_of_add_column (c l : string) (cols : list string) :
  c ∈ add_column l cols ↔ c = l ∨ c ∈ cols.
Proof.
  unfold add_column. case_decide as Hl.
  - split; [by right|]. by intros [->|?].
  - rewrite elem_of_app, list_elem_of_singleton. tauto.
Qed.

Lemma add_column_present (l : string) (cols : list string) :
  l ∈ cols → add_column l cols = cols.
Proof. intros. unfold add_column. by case_decide. Qed.

Lemma df_col_present (df : DataFrame) (l : string) :
  l ∈ columns df → df_col df l = Ok ((λ r : row, r !! l) <$> rows df).
Proof. intros. unfold df_col. by case_decide. Qed.

Lemma df_col_absent (df : DataFrame) (l : string) :
  l ∉ columns df → df_col df l = Raise (KeyError l).
Proof. intros. unfold df_col. by case_decide. Qed.

Lemma rows_loc_write (df : DataFrame) (id_label label : string) (x v : value) :
  rows (loc_write df (series_eq ((λ r : row, r !! id_label) <$> rows df) x) label v)
  = (λ r : row, if py_eq (r !! id_label) x then set_cell label v r else r) <$> rows df.
Proof.
  unfold loc_write, series_eq. cbn. rewrite <- list_fmap_compose.
  rewrite zip_with_fmap_r, zip_with_diag. done.
Qed.

Lemma columns_loc_write (df : DataFrame) (mask : list bool) (label : string) (v : value) :
  columns (loc_write df mask label v) = add_column label (columns df).
Proof. done. Qed.


Lemma loc_set_inv (df df' : DataFrame) (mask : list bool) (label : string) (v : value) :
  loc_set df mask label v = Ok df' → df' = loc_write df mask label v.
Proof. unfold loc_set. case_decide; [done|]. by intros [= <-]. Qed.


Lemma res_bind_ok {A B : Type} (f : A → res B) (a : A) : (Ok a ≫= f) = f a.
Proof. done. Qed.

Lemma res_bind_raise {A B : Type} (f : A → res B) (e : exn) : (Raise e ≫= f) = Raise e.
Proof. done. Qed.

(** ** Proof steps *)

Ltac solve_column :=
  cbn [columns loc_write df_drop_duplicates]; rewrite ?elem_of_add_column; tauto.



Ltac solve_closed := apply (bool_decide_unpack _); vm_compute; exact I.

(** ** Merging a pair: [collapse_nodes_and_edges] *)

Section CollapseProperties.

Variable re_other : string → res (string → bool).




End CollapseProperties.

(** ** Removing duplicates *)

Section DropDuplicates.
Context {A : Type} `{EqDecision A}.
Implicit Types l : list A.

Lemma elem_of_drop_duplicates x l : x ∈ drop_duplicates l ↔ x ∈ l.
Proof.
  induction l as [|y l IH]; cbn; [done|].
  rewrite !elem_of_cons, list_elem_of_filter, IH.
  destruct (decide (x = y)); tauto.
Qed.

Lemma NoDup_drop_duplicates l : NoDup (drop_duplicates l).
Proof.
  induction l as [|y l IH]; cbn; constructor.
  - rewrite list_elem_of_filter. tauto.
  - by apply NoDup_filter.
Qed.

Lemma filter_ne_absent x l : x ∉ l → filter (λ y, y ≠ x) l = l.
Proof.
  induction l as [|y l IH]; [done|].
  rewrite not_elem_of_cons. intros [Hxy Hx].
  rewrite filter_cons_True by done. by rewrite IH.
Qed.

Lemma drop_duplicates_NoDup l : NoDup l → drop_duplicates l = l.
Proof.
  induction 1 as [|x l Hx Hl IH]; cbn; [done|].
  by rewrite IH, filter_ne_absent.
Qed.

End DropDuplicates.

(** ** Committing the pending keys: [normalize_graph] *)

Lemma loc_copy_commit (df : DataFrame) (target source : string) :
  source ∈ columns df →
  loc_copy df (series_ne ((λ r : row, r !! source) <$> rows df) (of_str DEFAULT_VAL))
           target source
  = Ok (mkDF (add_column target (columns df)) (commit target source <$> rows df)).
Proof.
  intros Hs. unfold loc_copy. rewrite decide_True by done. do 2 f_equal.
  unfold series_ne. rewrite <- list_fmap_compose, zip_with_fmap_r, zip_with_diag. done.
Qed.

Lemma set_series_unwrap (df : DataFrame) (label : string) :
  set_series df label
    ((λ x, of_str (unwrap_key (of_str x))) <$> astype_str ((λ r : row, r !! label) <$> rows df))
  = mkDF (add_column label (columns df)) (unwrap_cell label <$> rows df).
Proof.
  unfold set_series, astype_str. f_equal.
  rewrite <- !list_fmap_compose, zip_with_fmap_r, zip_with_diag. done.
Qed.

Lemma normalize_graph_keep (g : Plottable) (self_edges unwrap : bool) :
  has_pending_columns g →
  normalize_graph g self_edges unwrap false
  = Ok (mkPlottable (committed_nodes g unwrap) (committed_edges g self_edges unwrap)
                    (_source g) (_destination g) (_node g)).
Proof.
  intros [Hn Hs Hd]. unfold normalize_graph, unpack. cbv zeta.
  destruct self_edges, unwrap; cbn [negb];
    repeat first [ rewrite res_bind_ok
                 | rewrite df_col_present by solve_column
                 | rewrite loc_copy_commit by solve_column
                 | rewrite set_series_unwrap ];
    unfold committed_nodes, committed_edges, set_nodes, set_edges;
    cbn [negb columns rows df_drop_duplicates _nodes _edges _source _destination _node];
    rewrite ?(add_column_present (_node g)), ?(add_column_present (_source g)),
            ?(add_column_present (_destination g))
      by (rewrite ?elem_of_add_column; tauto); done.
Qed.

Lemma df_drop_present (df : DataFrame) (labels : list string) :
  Forall (λ l, l ∈ columns df) labels → df_drop df labels = Ok (dropped labels df).
Proof.
  intros Hl. unfold df_drop.
  replace (filter (λ l, l ∉ columns df) labels) with (@nil string); [done|].
  symmetry. induction Hl as [|l ls Hin _ IH]; [done|].
  rewrite filter_cons_False by (by intros ?). done.
Qed.

Lemma normalize_graph_drop (g : Plottable) (self_edges unwrap : bool) :
  has_pending_columns g →
  normalize_graph g self_edges unwrap true
  = Ok (mkPlottable (dropped [COLLAPSE_NODE] (committed_nodes g unwrap))
                    (dropped [COLLAPSE_SRC; COLLAPSE_DST] (committed_edges g self_edges unwrap))
                    (_source g) (_destination g) (_node g)).
Proof.
  intros [Hn Hs Hd]. unfold normalize_graph, unpack. cbv zeta.
  destruct self_edges, unwrap; cbn [negb];
    repeat first [ rewrite res_bind_ok
                 | rewrite df_col_present by solve_column
                 | rewrite loc_copy_commit by solve_column
                 | rewrite set_series_unwrap
                 | rewrite df_drop_present
                     by (repeat constructor; cbn [columns df_drop_duplicates];
                         rewrite ?elem_of_add_column; tauto) ];
    unfold committed_nodes, committed_edges, set_nodes, set_edges;
    cbn [negb columns rows df_drop_duplicates _nodes _edges _source _destination _node];
    rewrite ?(add_column_present (_node g)), ?(add_column_present (_source g)),
            ?(add_column_present (_destination g))
      by (rewrite ?elem_of_add_column; tauto); done.
Qed.

Lemma py_str_of_str (s : string) : py_str (of_str s) = s.
Proof. done. Qed.

Ltac solve_commit r :=
  unfold commit, unwrap_cell;
  destruct (py_eq (r !! COLLAPSE_NODE) (of_str DEFAULT_VAL)) eqn:?;
  destruct (py_eq (r !! COLLAPSE_SRC) (of_str DEFAULT_VAL)) eqn:?;
  destruct (py_eq (r !! COLLAPSE_DST) (of_str DEFAULT_VAL)) eqn:?;
  cbn [negb]; rewrite ?lookup_set_cell_ne by done;
  repeat (match goal with H : py_eq _ _ = _ |- _ => rewrite H end;
          cbn [negb]; rewrite ?lookup_set_cell_ne by done);
  apply map_eq; intros ?; rewrite ?lookup_set_cell;
  repeat case_decide; subst;
  rewrite ?lookup_set_cell, ?decide_True by done;
  rewrite ?py_str_of_str, ?unwrap_key_idemp; congruence.

Lemma commit_node_again (node : string) (unwrap : bool) (r : row) :
  node ≠ COLLAPSE_NODE →
  let post := if unwrap then unwrap_cell node else id in
  post (commit node COLLAPSE_NODE (post (commit node COLLAPSE_NODE r)))
  = post (commit node COLLAPSE_NODE r).
Proof.
  intros Hn post. subst post. destruct unwrap; cbn [id]; solve_commit r.
Qed.

Lemma lookup_commit (t src l : string) (r : row) :
  commit t src r !! l
  = if decide (t = l) then
      if py_eq (r !! src) (of_str DEFAULT_VAL) then r !! l else r !! src
    else r !! l.
Proof.
  unfold commit. destruct (py_eq (r !! src) (of_str DEFAULT_VAL)); cbn [negb].
  - by case_decide.
  - apply lookup_set_cell.
Qed.

Lemma lookup_unwrap_cell (t l : string) (r : row) :
  unwrap_cell t r !! l
  = if decide (t = l) then of_str (unwrap_key (of_str (py_str (r !! t)))) else r !! l.
Proof. unfold unwrap_cell. by rewrite lookup_set_cell. Qed.

Lemma lookup_commit_twice (e l : string) (x : row) :
  e ≠ COLLAPSE_SRC → e ≠ COLLAPSE_DST →
  commit e COLLAPSE_DST (commit e COLLAPSE_SRC x) !! l
  = if decide (e = l) then
      if py_eq (x !! COLLAPSE_DST) (of_str DEFAULT_VAL)
      then if py_eq (x !! COLLAPSE_SRC) (of_str DEFAULT_VAL) then x !! e else x !! COLLAPSE_SRC
      else x !! COLLAPSE_DST
    else x !! l.
Proof.
  intros Hs Hd.
  rewrite (lookup_commit e COLLAPSE_DST l).
  rewrite (lookup_commit e COLLAPSE_SRC COLLAPSE_DST x), (decide_False (P := e = COLLAPSE_DST))
    by done.
  rewrite (lookup_commit e COLLAPSE_SRC l x).
  destruct (decide (e = l)) as [<-|?]; [|done].
  by destruct (py_eq (x !! COLLAPSE_DST) (of_str DEFAULT_VAL)),
              (py_eq (x !! COLLAPSE_SRC) (of_str DEFAULT_VAL)).
Qed.

Lemma lookup_unwrap_cell_twice (e l : string) (x : row) :
  unwrap_cell e (unwrap_cell e x) !! l
  = if decide (e = l) then of_str (unwrap_key (of_str (py_str (x !! e)))) else x !! l.
Proof.
  rewrite (lookup_unwrap_cell e l), (lookup_unwrap_cell e e x), (lookup_unwrap_cell e l x).
  rewrite (decide_True (P := e = e)) by done.
  destruct (decide (e = l)); [|done]. by rewrite py_str_of_str, unwrap_key_idemp.
Qed.

Lemma commit_edge_same (e : string) (unwrap : bool) (r : row) :
  e ≠ COLLAPSE_SRC → e ≠ COLLAPSE_DST →
  let post := if unwrap then unwrap_cell e ∘ unwrap_cell e else id in
  let h := commit e COLLAPSE_DST ∘ commit e COLLAPSE_SRC in
  post (h (post (h r))) = post (h r).
Proof.
  intros Hs Hd post h. subst post h. apply map_eq. intros l.
  destruct unwrap; cbn [id compose].
  - rewrite !lookup_unwrap_cell_twice, !lookup_commit_twice by done.
    rewrite !lookup_unwrap_cell_twice, !lookup_commit_twice by done.
    rewrite !(decide_False (P := e = COLLAPSE_DST)), !(decide_False (P := e = COLLAPSE_SRC))
      by done.
    destruct (decide (e = l)) as [<-|?]; [|done].
    rewrite !(decide_True (P := e = e)) by done.
    destruct (py_eq (r !! COLLAPSE_DST) (of_str DEFAULT_VAL)); [|done].
    destruct (py_eq (r !! COLLAPSE_SRC) (of_str DEFAULT_VAL)); [|done].
    by rewrite py_str_of_str, unwrap_key_idemp.
  - rewrite !lookup_commit_twice by done.
    rewrite ?lookup_commit_twice by done.
    destruct (decide (e = l)) as [<-|?]; [|done].
    rewrite ?(decide_False (P := e = COLLAPSE_DST)), ?(decide_False (P := e = COLLAPSE_SRC)),
      ?(decide_True (P := e = e)) by done.
    destruct (py_eq (r !! COLLAPSE_DST) (of_str DEFAULT_VAL)); [|done].
    by destruct (py_eq (r !! COLLAPSE_SRC) (of_str DEFAULT_VAL)).
Qed.

Lemma commit_edge_again (src dst : string) (unwrap : bool) (r : row) :
  src ≠ COLLAPSE_SRC → src ≠ COLLAPSE_DST → dst ≠ COLLAPSE_SRC → dst ≠ COLLAPSE_DST →
  let post := if unwrap then unwrap_cell dst ∘ unwrap_cell src else id in
  let h := commit dst COLLAPSE_DST ∘ commit src COLLAPSE_SRC in
  post (h (post (h r))) = post (h r).
Proof.
  intros ? ? ? ? post h. subst post h.
  destruct (decide (src = dst)) as [->|?]; [by apply commit_edge_same|].
  destruct unwrap; cbn [id compose]; solve_commit r.
Qed.

(** Committing again a table that was committed, post-processed and found
    free of duplicates gives the same table. *)
Lemma recommit_rows (f post : row → row) (l : list row) (dedup : bool) :
  (∀ r, post (f (post (f r))) = post (f r)) →
  let first := if dedup then drop_duplicates (f <$> l) else f <$> l in
  (dedup = true → NoDup (post <$> first)) →
  post <$> (if dedup then drop_duplicates (f <$> (post <$> first))
            else f <$> (post <$> first))
  = post <$> first.
Proof.
  intros Hagain first Hnodup.
  assert (post <$> (f <$> (post <$> first)) = post <$> first) as Hpost.
  { rewrite <- !list_fmap_compose. apply list_fmap_ext. intros i x Hx. cbn.
    assert (∃ r, x = f r) as [r ->]; [|by apply Hagain].
    assert (x ∈ f <$> l) as Hin.
    { apply list_elem_of_lookup_2 in Hx. subst first. destruct dedup; [|exact Hx].
      exact (proj1 (elem_of_drop_duplicates _ _) Hx). }
    apply list_elem_of_fmap in Hin as [r [-> _]]. by exists r. }
  destruct dedup; [|done].
  rewrite drop_duplicates_NoDup; [done|].
  apply (NoDup_fmap_1 post). rewrite Hpost. by apply Hnodup.
Qed.

Lemma normalize_graph_raises (g : Plottable) (self_edges unwrap remove_collapse : bool) :
  wf_labels g → ¬ has_pending_columns g →
  ∃ e, normalize_graph g self_edges unwrap remove_collapse = Raise e.
Proof.
  intros [Hn Hss Hsd Hds Hdd] Hno. unfold normalize_graph, unpack. cbv zeta.
  destruct (decide (COLLAPSE_NODE ∈ columns (_nodes g))) as [Hcn|Hcn];
    [|rewrite (df_col_absent (_nodes g) COLLAPSE_NODE) by done; by eexists].
  destruct (decide (COLLAPSE_SRC ∈ columns (_edges g))) as [Hcs|Hcs].
  2:{ rewrite (df_col_absent (_edges g) COLLAPSE_SRC) by done.
      repeat first [ rewrite res_bind_ok | rewrite res_bind_raise
                   | rewrite df_col_present by solve_column
                   | rewrite loc_copy_commit by solve_column ].
      by eexists. }
  destruct (decide (COLLAPSE_DST ∈ columns (_edges g))) as [Hcd|Hcd].
  { destruct Hno. by constructor. }
  repeat first [ rewrite res_bind_ok
               | rewrite df_col_present by solve_column
               | rewrite loc_copy_commit by solve_column ].
  rewrite df_col_absent; [by eexists|].
  cbn [columns]. rewrite elem_of_add_column. intros [?|?]; [congruence|done].
Qed.

(** C5, as amended. When the pending columns are kept and identities are
    not unwrapped, [normalize_graph] returns a node table without duplicate
    rows and, unless self-edges are kept, an edge table without duplicate
    rows. *)
Theorem normalize_graph_no_duplicates (g : Plottable) (self_edges : bool) :
  has_pending_columns g →
  ∃ g', normalize_graph g self_edges false false = Ok g'
        ∧ NoDup (rows (_nodes g'))
        ∧ (self_edges = false → NoDup (rows (_edges g'))).
Proof.
  intros Hcols. eexists. split; [by apply normalize_graph_keep|].
  cbn [_nodes _edges committed_nodes committed_edges rows]. split.
  - apply NoDup_drop_duplicates.
  - intros ->. apply NoDup_drop_duplicates.
Qed.

Lemma pending_columns_merged_pair : has_pending_columns Examples.merged_pair.
Proof. constructor; solve_closed. Defined.

Lemma normalize_graph_no_duplicates_witness :
  has_pending_columns Examples.merged_pair
  ∧ ∃ g', normalize_graph Examples.merged_pair false false false = Ok g'
          ∧ NoDup (rows (_nodes g'))
          ∧ (false = false → NoDup (rows (_edges g'))).
Proof.
  split; [exact pending_columns_merged_pair|].
  exact (normalize_graph_no_duplicates _ false pending_columns_merged_pair).
Defined.

(** C5 fails as stated: rows are compared before identities are unwrapped
    and before the pending columns are dropped, and either step can make
    two rows equal. *)
Lemma normalize_graph_leaves_duplicates :
  (∃ g', normalize_graph Examples.delimited_names false true false = Ok g'
         ∧ ¬ NoDup (rows (_nodes g')) ∧ ¬ NoDup (rows (_edges g')))
  ∧ (∃ g', normalize_graph Examples.key_as_name false false true = Ok g'
           ∧ ¬ NoDup (rows (_nodes g')) ∧ ¬ NoDup (rows (_edges g'))).
Proof.
  split; eexists; (split; [vm_compute; reflexivity|]);
    split; intros Hnd; apply (bool_decide_pack _) in Hnd; vm_compute in Hnd; exact Hnd.
Qed.

Lemma fmap_if_id (b : bool) (f : row → row) (l : list row) :
  (if b then f <$> l else l) = (if b then f else id) <$> l.
Proof. destruct b; [done|]. by rewrite list_fmap_id. Qed.

Lemma DataFrame_eq (a b : DataFrame) :
  columns a = columns b → rows a = rows b → a = b.
Proof. destruct a, b. cbn. by intros -> ->. Qed.

Lemma rows_committed_nodes (g : Plottable) (unwrap : bool) :
  rows (committed_nodes g unwrap)
  = (if unwrap then unwrap_cell (_node g) else id)
      <$> drop_duplicates (commit (_node g) COLLAPSE_NODE <$> rows (_nodes g)).
Proof. unfold committed_nodes. cbn [rows]. apply fmap_if_id. Qed.

Lemma rows_committed_edges (g : Plottable) (self_edges unwrap : bool) :
  let h := commit (_destination g) COLLAPSE_DST ∘ commit (_source g) COLLAPSE_SRC in
  rows (committed_edges g self_edges unwrap)
  = (if unwrap then unwrap_cell (_destination g) ∘ unwrap_cell (_source g) else id)
      <$> (if negb self_edges then drop_duplicates (h <$> rows (_edges g))
           else h <$> rows (_edges g)).
Proof.
  intros h. unfold committed_edges. cbv zeta. cbn [rows].
  destruct unwrap, self_edges; cbn [negb];
    rewrite ?list_fmap_id; subst h; by rewrite <- ?list_fmap_compose.
Qed.

(** C6, as amended. With the pending columns kept, a second
    [normalize_graph] with the same options returns the graph the first one
    returned, provided the tables the first call returned and had compared
    for duplicates are free of them; they are when identities were not
    unwrapped.  With the pending columns dropped, the second call raises
    [KeyError] for the first of them. *)
Theorem normalize_graph_twice (g g1 : Plottable)
  (self_edges unwrap remove_collapse : bool) :
  wf_labels g →
  normalize_graph g self_edges unwrap remove_collapse = Ok g1 →
  if remove_collapse
  then normalize_graph g1 self_edges unwrap remove_collapse = Raise (KeyError COLLAPSE_NODE)
  else
    unwrap = false
    ∨ (NoDup (rows (_nodes g1)) ∧ (self_edges = false → NoDup (rows (_edges g1)))) →
    normalize_graph g1 self_edges unwrap remove_collapse = Ok g1.
Proof.
  intros Hwf Hfirst.
  assert (has_pending_columns g) as Hcols.
  { destruct (decide (has_pending_columns g)) as [|Hno]; [done|].
    destruct (normalize_graph_raises g self_edges unwrap remove_collapse Hwf Hno) as [e He].
    congruence. }
  destruct remove_collapse.
  { rewrite normalize_graph_drop in Hfirst by done. injection Hfirst as <-.
    unfold normalize_graph, unpack. cbv zeta.
    rewrite (df_col_absent (_nodes _) COLLAPSE_NODE); [reflexivity|].
    cbn [_nodes columns dropped]. rewrite list_elem_of_filter. intros [Hne _].
    apply Hne. by left. }
  intros Hnodup.
  rewrite normalize_graph_keep in Hfirst by done.
  injection Hfirst as <-. cbn [_nodes _edges] in Hnodup.
  assert (NoDup (rows (committed_nodes g unwrap))
          ∧ (negb self_edges = true → NoDup (rows (committed_edges g self_edges unwrap))))
    as [Hnd_nodes Hnd_edges].
  { destruct Hnodup as [->|[Hnd Hnd']].
    - rewrite rows_committed_nodes, rows_committed_edges. cbv zeta.
      rewrite !list_fmap_id. split; [apply NoDup_drop_duplicates|].
      intros ->. apply NoDup_drop_duplicates.
    - split; [done|]. intros Hse. apply Hnd'. by destruct self_edges. }
  clear Hnodup.
  destruct Hwf as [Hn Hss Hsd Hds Hdd], Hcols as [Hcn Hcs Hcd].
  rewrite normalize_graph_keep
    by (constructor; cbn [_nodes _edges committed_nodes committed_edges columns];
        rewrite ?elem_of_add_column; tauto).
  cbn [_source _destination _node]. do 2 f_equal; apply DataFrame_eq.
  - cbn [committed_nodes columns _nodes _node].
    apply add_column_present. rewrite elem_of_add_column. tauto.
  - rewrite (rows_committed_nodes (mkPlottable _ _ _ _ _)). cbn [_nodes _node].
    rewrite rows_committed_nodes in *.
    apply (recommit_rows (commit (_node g) COLLAPSE_NODE) _ _ true);
      [intros r; by apply commit_node_again|by intros _].
  - cbn [committed_edges columns _edges _source _destination].
    rewrite !(add_column_present (_source g)), !(add_column_present (_destination g))
      by (rewrite !elem_of_add_column; tauto). done.
  - rewrite (rows_committed_edges (mkPlottable _ _ _ _ _)).
    cbn [_edges _source _destination]. cbv zeta.
    rewrite rows_committed_edges in *. cbv zeta in Hnd_edges.
    apply (recommit_rows
             (commit (_destination g) COLLAPSE_DST ∘ commit (_source g) COLLAPSE_SRC)
             _ _ (negb self_edges));
      [intros r; by apply commit_edge_again|done].
Qed.

Lemma wf_labels_examples (nodes edges : DataFrame) :
  wf_labels (mkPlottable nodes edges "src" "dst" "node").
Proof. by constructor. Defined.

Lemma normalize_graph_twice_witness :
  let g := Examples.merged_pair in
  let g1 := mkPlottable (committed_nodes g true) (committed_edges g false true)
                        "src" "dst" "node" in
  let g2 := mkPlottable (dropped [COLLAPSE_NODE] (committed_nodes g true))
                        (dropped [COLLAPSE_SRC; COLLAPSE_DST] (committed_edges g false true))
                        "src" "dst" "node" in
  wf_labels g
  ∧ normalize_graph g false true false = Ok g1
  ∧ NoDup (rows (_nodes g1)) ∧ NoDup (rows (_edges g1))
  ∧ normalize_graph g1 false true false = Ok g1
  ∧ normalize_graph g false true true = Ok g2
  ∧ normalize_graph g2 false true true = Raise (KeyError COLLAPSE_NODE).
Proof.
  intros g g1 g2.
  assert (normalize_graph g false true false = Ok g1) as Hfirst
    by (vm_compute; reflexivity).
  assert (normalize_graph g false true true = Ok g2) as Hdrop
    by (vm_compute; reflexivity).
  assert (NoDup (rows (_nodes g1))) as Hnodes by solve_closed.
  assert (NoDup (rows (_edges g1))) as Hedges by solve_closed.
  split; [apply wf_labels_examples|]. split; [exact Hfirst|].
  split; [exact Hnodes|]. split; [exact Hedges|]. split; [|split; [exact Hdrop|]].
  - apply (normalize_graph_twice g g1 false true false (wf_labels_examples _ _) Hfirst).
    right. split; [exact Hnodes|intros _; exact Hedges].
  - exact (normalize_graph_twice g g2 false true true (wf_labels_examples _ _) Hdrop).
Defined.

(** C6 fails as stated: once the pending columns are dropped a second call
    finds no pending column to read, and once identities are unwrapped the
    second call may find duplicates that the first one left. *)
Lemma normalize_graph_twice_differs :
  (∃ g1, normalize_graph Examples.merged_pair false false true = Ok g1
         ∧ normalize_graph g1 false false true = Raise (KeyError COLLAPSE_NODE))
  ∧ (∃ g1 g2, normalize_graph Examples.delimited_names false true false = Ok g1
              ∧ normalize_graph g1 false true false = Ok g2
              ∧ length (rows (_nodes g1)) = 2 ∧ length (rows (_nodes g2)) = 1).
Proof.
  split.
  - eexists. split; vm_compute; reflexivity.
  - do 2 eexists. split; [vm_compute; reflexivity|].
    split; [vm_compute; reflexivity|]. split; reflexivity.
Qed.

(** ** Loops *)

Lemma for_each_invariant {A S : Type} (P : S → Prop) (body : S → A → res S)
  (s : S) (l : list A) (w : S) :
  P s → (∀ s x s', P s → body s x = Ok s' → P s') →
  for_each body s l = Ok w → P w.
Proof.
  intros Hs Hbody. revert s Hs. induction l as [|x l IH]; intros s Hs; cbn [for_each].
  - by intros [= <-].
  - destruct (body s x) as [s'|e] eqn:Hx; [|done]. rewrite res_bind_ok.
    apply IH. by eapply Hbody.
Qed.

Lemma for_each_mono {A S : Type} (body body' : S → A → res S) (s : S) (l : list A) (w : S) :
  (∀ s x s', body s x = Ok s' → body' s x = Ok s') →
  for_each body s l = Ok w → for_each body' s l = Ok w.
Proof.
  intros Hbody. revert s. induction l as [|x l IH]; intros s; cbn [for_each]; [done|].
  destruct (body s x) as [s'|e] eqn:Hx; [|done].
  rewrite (Hbody _ _ _ Hx), !res_bind_ok. apply IH.
Qed.

(** ** The traversal: [collapse] *)

Section Traversal.

Variable re_other : string → res (string → bool).

Lemma check_default_present (g : Plottable) :
  COLLAPSE_NODE ∈ columns (_nodes g) → COLLAPSE_SRC ∈ columns (_edges g) →
  check_default_columns_present_and_coerce_to_string g = Ok g.
Proof.
  intros Hn Hs. unfold check_default_columns_present_and_coerce_to_string, unpack.
  rewrite decide_False by (by intros []). rewrite res_bind_ok.
  by rewrite decide_False by (by intros []).
Qed.

(** C4, as amended. A call whose pair key is in [seen] merges nothing,
    marks nothing and makes no recursive call (room for one call is
    enough): it returns [seen] as it was and the graph as
    [check_default_columns_present_and_coerce_to_string] leaves it, which
    is the graph itself when the pending-key columns are there. *)
Theorem collapse_seen_pair (depth : nat) (g : Plottable) (child parent attribute : value)
  (column : string) (seen : gmap string Z) :
  is_Some (seen !! (py_str parent +:+ " " +:+ py_str child)) →
  collapse re_other (S depth) g child parent attribute column seen
  = (g' ← check_default_columns_present_and_coerce_to_string g; Ok (g', seen))
  ∧ (COLLAPSE_NODE ∈ columns (_nodes g) → COLLAPSE_SRC ∈ columns (_edges g) →
     collapse re_other (S depth) g child parent attribute column seen = Ok (g, seen)).
Proof.
  intros Hseen.
  assert (collapse re_other (S depth) g child parent attribute column seen
          = (g' ← check_default_columns_present_and_coerce_to_string g; Ok (g', seen)))
    as Hcall.
  { cbn [collapse]. unfold collapse_call.
    destruct (check_default_columns_present_and_coerce_to_string g) as [g'|e]; [|done].
    rewrite !res_bind_ok. cbv zeta. by rewrite decide_True. }
  split; [done|]. intros Hn Hs. by rewrite Hcall, check_default_present.
Qed.

(** One call on the cycle A -> B -> A: the parent lacks the attribute, so
    the call goes on to the only neighbor of the child, with [seen] as it
    was. *)
Lemma two_cycle_call
  (self : Plottable → value → value → value → string → gmap string Z → res walk) :
  let next (child : string) :=
    for_each (λ (w : walk) e, self w.1 e (of_str child) (of_str "x") "type" w.2)
             (Prepared.two_cycle, ∅) in
  collapse_call re_other self Examples.two_cycle
                (of_str "A") (of_str "A") (of_str "x") "type" ∅
  = next "A" [of_str "B"]
  ∧ collapse_call re_other self Prepared.two_cycle
                  (of_str "B") (of_str "A") (of_str "x") "type" ∅
    = next "B" [of_str "A"]
  ∧ collapse_call re_other self Prepared.two_cycle
                  (of_str "A") (of_str "B") (of_str "x") "type" ∅
    = next "A" [of_str "B"].
Proof. repeat split; vm_compute; reflexivity. Qed.

(** C1, at a failing input. On the cycle A -> B -> A, where no node has
    the attribute, [collapse] never returns: whatever the recursion limit,
    the run ends in [RecursionError].  The pairs (A, B) and (B, A) are
    visited again and again, since the branch taken when the parent lacks
    the attribute adds nothing to [seen]. *)
Theorem collapse_two_cycle_never_returns (depth : nat) :
  collapse re_other depth Examples.two_cycle (of_str "A") (of_str "A") (of_str "x")
           "type" ∅
  = Raise RecursionError.
Proof.
  assert (∀ d,
    collapse re_other d Prepared.two_cycle (of_str "B") (of_str "A") (of_str "x") "type" ∅
    = Raise RecursionError
    ∧ collapse re_other d Prepared.two_cycle (of_str "A") (of_str "B") (of_str "x") "type" ∅
      = Raise RecursionError) as Hloop.
  { induction d as [|d [IH1 IH2]]; [done|]. cbn [collapse].
    destruct (two_cycle_call (collapse re_other d)) as (_ & -> & ->).
    cbn [for_each fst snd]. by rewrite IH1, IH2. }
  destruct depth as [|d]; [done|]. cbn [collapse].
  destruct (two_cycle_call (collapse re_other d)) as (-> & _ & _).
  cbn [for_each fst snd]. by rewrite (proj1 (Hloop d)).
Qed.

(** X15. [seen] only grows: a key that is in the dict when a call starts
    is in it when the call returns. *)
Lemma collapse_seen_grows (depth : nat) (g : Plottable) (child parent attribute : value)
  (column : string) (seen : gmap string Z) (g' : Plottable) (seen' : gmap string Z) :
  collapse re_other depth g child parent attribute column seen = Ok (g', seen') →
  dom seen ⊆ dom seen'.
Proof.
  revert g child parent seen g' seen'.
  induction depth as [|depth IH]; intros g child parent seen g' seen'; [done|].
  cbn [collapse]. unfold collapse_call.
  destruct (check_default_columns_present_and_coerce_to_string g) as [g0|]; [|done].
  rewrite res_bind_ok. cbv zeta. case_decide; [by intros [= _ <-]|].
  assert (∀ (w0 : walk) es,
            dom seen ⊆ dom w0.2 →
            for_each (λ (w : walk) e, collapse re_other depth w.1 e child attribute column w.2)
                     w0 es = Ok (g', seen') →
            dom seen ⊆ dom seen') as Hloop.
  { intros w0 es Hw0 Hes.
    apply (for_each_invariant (λ w : walk, dom seen ⊆ dom w.2) _ _ _ _ Hw0) in Hes;
      [done|].
    intros [g1 s1] e [g2 s2] Hs1 Hcall. apply IH in Hcall. cbn [fst snd] in *.
    by etrans. }
  assert (∀ k (s : gmap string Z), dom seen ⊆ dom s → dom seen ⊆ dom (<[k := 1%Z]> s))
    as Hins.
  { intros k s Hs. rewrite dom_insert_L. by apply union_subseteq_r'. }
  destruct (has_property g0 parent attribute column) as [[|]|]; [| |done];
    rewrite res_bind_ok.
  - destruct (negb (str_in _ _)).
    + destruct (collapse_nodes_and_edges re_other g0 parent parent) as [g1|]; [|done].
      rewrite !res_bind_ok.
      destruct (has_property g1 child attribute column) as [[|]|]; [| |done];
        rewrite res_bind_ok.
      * destruct (collapse_nodes_and_edges re_other g1 parent child) as [g2|]; [|done].
        rewrite res_bind_ok.
        destruct (get_edges_of_node g2 parent true 1) as [es|]; [|done].
        rewrite res_bind_ok. apply Hloop. cbn [snd]. by apply Hins, Hins.
      * intros [= _ <-]. by apply Hins.
    + rewrite !res_bind_ok.
      destruct (has_property g0 child attribute column) as [[|]|]; [| |done];
        rewrite res_bind_ok.
      * destruct (collapse_nodes_and_edges re_other g0 parent child) as [g2|]; [|done].
        rewrite res_bind_ok.
        destruct (get_edges_of_node g2 parent true 1) as [es|]; [|done].
        rewrite res_bind_ok. apply Hloop. cbn [snd]. by apply Hins.
      * by intros [= _ <-].
  - destruct (get_edges_of_node g0 child true 1) as [es|]; [|done].
    rewrite res_bind_ok. by apply Hloop.
Qed.

Lemma collapse_call_mono
  (self self' : Plottable → value → value → value → string → gmap string Z → res walk)
  (g : Plottable) (child parent attribute : value) (column : string)
  (seen : gmap string Z) (w : walk) :
  (∀ g child parent attribute column seen w,
     self g child parent attribute column seen = Ok w →
     self' g child parent attribute column seen = Ok w) →
  collapse_call re_other self g child parent attribute column seen = Ok w →
  collapse_call re_other self' g child parent attribute column seen = Ok w.
Proof.
  intros Hself. unfold collapse_call.
  destruct (check_default_columns_present_and_coerce_to_string g) as [g0|]; [|done].
  rewrite !res_bind_ok. cbv zeta. case_decide; [done|].
  destruct (has_property g0 parent attribute column) as [[|]|]; [| |done];
    rewrite !res_bind_ok.
  - destruct (if negb (str_in _ _) then _ else _) as [[g1 seen1]|]; [|done].
    rewrite !res_bind_ok.
    destruct (has_property g1 child attribute column) as [[|]|]; [|done|done].
    rewrite !res_bind_ok.
    destruct (collapse_nodes_and_edges re_other g1 parent child) as [g2|]; [|done].
    rewrite !res_bind_ok.
    destruct (get_edges_of_node g2 parent true 1) as [es|]; [|done].
    rewrite !res_bind_ok. apply for_each_mono. intros ? ? ?. apply Hself.
  - destruct (get_edges_of_node g0 child true 1) as [es|]; [|done].
    rewrite !res_bind_ok. apply for_each_mono. intros ? ? ?. apply Hself.
Qed.

(** A run that returns within some recursion limit returns the same under
    any larger one. *)
Lemma collapse_depth_S (depth : nat) (g : Plottable) (child parent attribute : value)
  (column : string) (seen : gmap string Z) (w : walk) :
  collapse re_other depth g child parent attribute column seen = Ok w →
  collapse re_other (S depth) g child parent attribute column seen = Ok w.
Proof.
  revert g child parent attribute column seen w.
  induction depth as [|depth IH]; intros g child parent attribute column seen w; [done|].
  intros Hcall. change (collapse re_other (S (S depth)))
    with (collapse_call re_other (collapse re_other (S depth))).
  eapply collapse_call_mono; [|exact Hcall]. apply IH.
Qed.

Lemma collapse_depth_more (depth extra : nat) (g : Plottable)
  (child parent attribute : value) (column : string) (seen : gmap string Z) (w : walk) :
  collapse re_other depth g child parent attribute column seen = Ok w →
  collapse re_other (extra + depth) g child parent attribute column seen = Ok w.
Proof.
  intros Hcall. induction extra as [|extra IH]; [done|].
  by apply collapse_depth_S.
Qed.

(** C3, at a failing input. On the chain A -> B -> C, all three with the
    attribute, the walk from A returns, under any recursion limit of five
    calls or more, with B and C holding the key of {A, B, C} while A still
    holds the key of {A, B}: A is a member of the supernode of B, and its
    own key is a strict subset of that supernode. *)
Theorem collapse_chain_stale_key :
  ∃ (g' : Plottable) (seen' : gmap string Z),
    (∀ extra : nat,
       collapse re_other (extra + 5) Examples.chain (of_str "A") (of_str "A") (of_str "x")
                "type" ∅
       = Ok (g', seen'))
    ∧ pending_keys g' (of_str "A") = [of_str "~A~ ~B~"]
    ∧ pending_keys g' (of_str "B") = [of_str "~A~ ~B~ ~C~"]
    ∧ pending_keys g' (of_str "C") = [of_str "~A~ ~B~ ~C~"]
    ∧ (wrap_key (of_str "A") ∈ split "~A~ ~B~ ~C~")
    ∧ (wrap_key (of_str "C") ∉ split "~A~ ~B~").
Proof.
  do 2 eexists. split.
  { intros extra. apply collapse_depth_more. vm_compute. reflexivity. }
  repeat split; try (vm_compute; reflexivity); solve_closed.
Qed.

(** C7. Membership in a cluster is a search for the encoded identity
    inside the text of the pending keys: with B alone in its cluster,
    the identity B~ is found in the key ~B~ although it is none of its
    tokens; and since the encoded identity is read as a pattern, 1.1 is
    found in ~111~. *)
Theorem in_cluster_store_keys_false_positive :
  ∃ (id1 id2 : value) (g g' : Plottable),
    id1 ≠ id2
    ∧ collapse_nodes_and_edges re_other g id2 id2 = Ok g'
    ∧ pending_keys g' id2 = [of_str (wrap_key id2)]
    ∧ pending_keys g' id1 = [of_str DEFAULT_VAL]
    ∧ (wrap_key id1 ∉ split (wrap_key id2))
    ∧ str_in (wrap_key id1) (wrap_key id2) = true
    ∧ in_cluster_store_keys re_other (_nodes g') id1 = Ok true.
Proof.
  exists (of_str "B~"), (of_str "B"), Prepared.delimiter_in_name. eexists.
  split; [done|]. split; [vm_compute; reflexivity|].
  repeat split; try (vm_compute; reflexivity); solve_closed.
Qed.

Lemma in_cluster_store_keys_pattern_false_positive :
  ∃ (g' : Plottable),
    collapse_nodes_and_edges re_other Prepared.dot_in_name (of_str "111") (of_str "111")
    = Ok g'
    ∧ pending_keys g' (of_str "111") = [of_str "~111~"]
    ∧ pending_keys g' (of_str "1.1") = [of_str DEFAULT_VAL]
    ∧ str_in (wrap_key (of_str "1.1")) "~111~" = false
    ∧ in_cluster_store_keys re_other (_nodes g') (of_str "1.1") = Ok true.
Proof.
  eexists. split; [vm_compute; reflexivity|].
  repeat split; vm_compute; reflexivity.
Qed.

(** C10. The encoded identity is compiled as a regular expression: for
    the identity [(] the pattern is [~(~], its parenthesis is never
    closed, and the membership test raises instead of answering. *)
Theorem in_cluster_store_keys_raises :
  ∃ (ndf : DataFrame) (node : value),
    COLLAPSE_NODE ∈ columns ndf
    ∧ node = of_str "("
    ∧ Re.parse (wrap_key node) = Re.SyntaxError
    ∧ in_cluster_store_keys re_other ndf node = Raise ReError
    ∧ in_cluster_store_keys re_other ndf (of_str "A") = Ok true.
Proof.
  exists (_nodes Examples.merged_pair), (of_str "(").
  split; [solve_closed|]. repeat split; vm_compute; reflexivity.
Qed.

End Traversal.

(** ** The merge and the guard on example graphs *)

Lemma id_columns_merged_pair : has_id_columns Examples.merged_pair.
Proof. constructor; solve_closed. Defined.


(** On an edge table without rows and without pending columns the merge
    raises [ValueError]. *)
Example collapse_nodes_and_edges_no_rows :
  collapse_nodes_and_edges Examples.no_other Examples.no_edges (of_str "A") (of_str "A")
  = Raise ValueError.
Proof. vm_compute. reflexivity. Qed.

Lemma collapse_seen_pair_witness :
  let seen : gmap string Z := {[ "A B" := 1%Z ]} in
  is_Some (seen !! (py_str (of_str "A") +:+ " " +:+ py_str (of_str "B")))
  ∧ collapse Examples.no_other 1 Examples.merged_pair
             (of_str "B") (of_str "A") (of_str "x") "type" seen
    = Ok (Examples.merged_pair, seen).
Proof.
  intros seen.
  assert (is_Some (seen !! (py_str (of_str "A") +:+ " " +:+ py_str (of_str "B")))) as Hseen
    by (vm_compute; by eexists).
  split; [exact Hseen|].
  apply (proj2 (collapse_seen_pair Examples.no_other 0 Examples.merged_pair
                  (of_str "B") (of_str "A") (of_str "x") "type" seen Hseen));
    solve_closed.
Defined.

(** C4 fails as stated: the first thing a call does, before it looks its
    pair up in [seen], is to add the pending-key columns to tables that
    lack them. *)
Lemma collapse_seen_pair_adds_columns :
  let seen : gmap string Z := {[ "A A" := 1%Z ]} in
  is_Some (seen !! "A A")
  ∧ collapse Examples.no_other 1 Examples.two_cycle
             (of_str "A") (of_str "A") (of_str "x") "type" seen
    = Ok (Prepared.two_cycle, seen)
  ∧ columns (_nodes Examples.two_cycle) = ["node"; "type"]
  ∧ columns (_nodes Prepared.two_cycle) = ["node"; "type"; COLLAPSE_NODE]
  ∧ Prepared.two_cycle ≠ Examples.two_cycle.
Proof.
  intros seen. split; [vm_compute; by eexists|].
  split; [vm_compute; reflexivity|]. split; [reflexivity|]. split; [reflexivity|].
  intros Heq. by apply (f_equal (λ g, length (columns (_nodes g)))) in Heq.
Qed.

(** * Further properties *)

(** ** ClusterKeyCodec: more on the encoding *)

(** X1. [unwrap_key] leaves no delimiter in its result, undoes [wrap_key]
    up to the delimiters the identity itself holds, and unwrapping twice
    is unwrapping once. *)
Theorem unwrap_key_strips (x : value) :
  str_in WRAP (unwrap_key x) = false
  ∧ unwrap_key (of_str (wrap_key x)) = unwrap_key x
  ∧ unwrap_key (of_str (unwrap_key x)) = unwrap_key x.
Proof.
  split; [apply str_in_replace_go_wrap|]. split.
  - unfold wrap_key, unwrap_key.
    destruct (str_in WRAP (py_str x)); [done|].
    change (replace_go WRAP "" 0 (WRAP +:+ py_str x +:+ WRAP)
            = replace_go WRAP "" 0 (py_str x)).
    rewrite !replace_go_wrap_app.
    change (replace_go WRAP "" 0 WRAP) with "".
    change ("" +:+ replace_go WRAP "" 0 (py_str x) +:+ "")
      with (replace_go WRAP "" 0 (py_str x) +:+ "").
    apply append_empty_r.
  - apply replace_go_wrap_id, str_in_replace_go_wrap.
Qed.

Lemma reduce_key_again (key : string) :
  Forall (λ t, rstrip_nul t ≠ "") (split key) → reduce_key (reduce_key key) = reduce_key key.
Proof.
  intros Hkey.
  assert ("" ∉ rstrip_nul <$> split key) as Hno.
  { intros (t & Heq & Ht)%list_elem_of_fmap.
    by apply (proj1 (Forall_forall _ _) Hkey t Ht). }
  apply reduce_key_np_ext; [intros t; apply elem_of_np_tokens_reduce_key|].
  split; [|by intros ?].
  intros (t & Heq & Ht)%list_elem_of_fmap.
  apply elem_of_split_reduce_key, elem_of_np_tokens in Ht as (Hne & t0 & Ht0 & ->).
  rewrite rstrip_nul_idemp in Heq. by rewrite <- Heq in Hne.
Qed.

(** X2. [reduce_key] sees only the set of tokens of a key: a repeated
    part adds nothing and the order of two parts does not matter.  Reducing
    twice is a fixed point; reducing once is one, and reducing a part
    before another is appended gives the same key as reducing at the end
    (how [get_new_node_name] uses it on the result of [melt]), when no
    token of the key is made of NUL characters only. *)
Theorem reduce_key_order_and_repeats (a b : string) :
  reduce_key (a +:+ " " +:+ a) = reduce_key a
  ∧ reduce_key (a +:+ " " +:+ b) = reduce_key (b +:+ " " +:+ a)
  ∧ reduce_key (reduce_key (reduce_key a)) = reduce_key (reduce_key a)
  ∧ (Forall (λ t, rstrip_nul t ≠ "") (split a) →
     reduce_key (reduce_key a) = reduce_key a
     ∧ reduce_key (reduce_key a +:+ " " +:+ b) = reduce_key (a +:+ " " +:+ b)).
Proof.
  split; [|split; [|split]].
  - apply reduce_key_ext. intros t. rewrite split_app_space, elem_of_app. tauto.
  - apply reduce_key_ext. intros t. rewrite !split_app_space, !elem_of_app. tauto.
  - apply reduce_key_again. apply Forall_forall. intros t Ht.
    apply elem_of_split_reduce_key, list_elem_of_filter in Ht as [Hne Ht].
    apply list_elem_of_fmap in Ht as (t0 & -> & _). by rewrite rstrip_nul_idemp.
  - intros Ha. split; [by apply reduce_key_again|].
    apply reduce_key_np_ext.
    + intros t.
      rewrite !np_tokens_app_space, !elem_of_app, elem_of_np_tokens_reduce_key. tauto.
    + rewrite !split_app_space, !fmap_app, !elem_of_app.
      split; (intros [Hin|?]; [exfalso|by right]);
        apply list_elem_of_fmap in Hin as (t & Heq & Ht).
      * apply elem_of_split_reduce_key, elem_of_np_tokens in Ht as (Hne & t0 & _ & ->).
        rewrite rstrip_nul_idemp in Heq. by rewrite <- Heq in Hne.
      * by apply (proj1 (Forall_forall _ _) Ha t Ht).
Qed.

Lemma reduce_key_order_and_repeats_witness :
  Forall (λ t, rstrip_nul t ≠ "") (split "b a b")
  ∧ reduce_key ("b a b" +:+ " " +:+ "b a b") = reduce_key "b a b"
  ∧ reduce_key ("b a b" +:+ " " +:+ "c") = reduce_key ("c" +:+ " " +:+ "b a b")
  ∧ reduce_key (reduce_key (reduce_key "b a b")) = reduce_key (reduce_key "b a b")
  ∧ reduce_key (reduce_key "b a b") = reduce_key "b a b"
  ∧ reduce_key (reduce_key "b a b" +:+ " " +:+ "c") = reduce_key ("b a b" +:+ " " +:+ "c").
Proof.
  assert (Forall (λ t, rstrip_nul t ≠ "") (split "b a b")) as Hab
    by (repeat (apply Forall_cons_2; [done|]); apply Forall_nil_2).
  destruct (reduce_key_order_and_repeats "b a b" "c") as (H1 & H2 & H3 & H4).
  destruct (H4 Hab) as [H5 H6]. done.
Defined.

Lemma wrap_append_inj (s t : string) : WRAP +:+ s +:+ WRAP = WRAP +:+ t +:+ WRAP → s = t.
Proof.
  intros H. apply (inj (String.app WRAP)) in H.
  revert t H. induction s as [|c s IH]; intros [|d t] H; simplify_eq/=; try done.
  - by destruct t.
  - by destruct s.
  - f_equal. by apply IH.
Qed.

(** X3. On identities whose text holds no delimiter, [wrap_key] is
    injective up to [str]: two of them with the same encoding have the
    same text.  The int 7 and the str "7" are encoded alike. *)
Theorem wrap_key_injective (x y : value) :
  str_in WRAP (py_str x) = false → str_in WRAP (py_str y) = false →
  wrap_key x = wrap_key y → py_str x = py_str y.
Proof.
  unfold wrap_key. intros -> ->. apply wrap_append_inj.
Qed.

Lemma wrap_key_injective_witness :
  str_in WRAP (py_str (Some (Int 7))) = false
  ∧ str_in WRAP (py_str (of_str "7")) = false
  ∧ wrap_key (Some (Int 7)) = wrap_key (of_str "7")
  ∧ py_str (Some (Int 7)) = py_str (of_str "7").
Proof.
  do 3 (split; [vm_compute; reflexivity|]).
  apply (wrap_key_injective (Some (Int 7)) (of_str "7")); vm_compute; reflexivity.
Defined.

(** ** Rows picked by a mask: [has_edge], [get_edges_of_node], [has_property] *)

Lemma elem_of_select_fmap {A : Type} (f : A → bool) (l : list A) (x : A) :
  x ∈ select l (f <$> l) ↔ x ∈ l ∧ f x = true.
Proof.
  induction l as [|y l IH]; cbn.
  - rewrite elem_of_nil. tauto.
  - destruct (f y) eqn:Hy; rewrite ?elem_of_cons, IH.
    + split; [intros [->|[? ?]]; tauto|]. intros [[->|?] ?]; tauto.
    + split; [tauto|]. intros [[->|?] ?]; [congruence|done].
Qed.

Lemma existsb_py_eq (x : value) (l : list value) :
  existsb (λ v, py_eq v x) l = true ↔ ∃ a, x = Some a ∧ Some a ∈ l.
Proof.
  rewrite existsb_exists. split.
  - intros (v & Hv%list_elem_of_In & Heq). unfold py_eq in Heq.
    destruct v as [a|], x as [b|]; try done.
    apply bool_decide_eq_true in Heq as ->. eauto.
  - intros (a & -> & Ha). exists (Some a). split; [by apply list_elem_of_In|].
    cbn. by apply bool_decide_eq_true.
Qed.

Lemma df_col_ok (df : DataFrame) (l : string) (s : list value) :
  df_col df l = Ok s → l ∈ columns df ∧ s = (λ r : row, r !! l) <$> rows df.
Proof. unfold df_col. case_decide; [|done]. by intros [= <-]. Qed.

(** What [leads_to] answers: is there a row whose [src] cell is [n] and
    whose [dst] cell is [x]? *)
Lemma leads_to_true (edf : DataFrame) (src dst : string) (n x : value) :
  src ∈ columns edf → dst ∈ columns edf →
  ∃ b, leads_to edf src dst n x = Ok b
       ∧ (b = true ↔ ∃ (r : row) a c, r ∈ rows edf ∧ n = Some a ∧ x = Some c
                                      ∧ r !! src = Some a ∧ r !! dst = Some c).
Proof.
  intros Hs Hd. unfold leads_to.
  rewrite (df_col_present edf src), res_bind_ok by done.
  rewrite df_col_present, res_bind_ok by done.
  eexists. split; [done|]. rewrite existsb_py_eq. cbn [rows df_mask].
  unfold series_eq. rewrite <- list_fmap_compose. split.
  - intros (c & -> & Hc). apply list_elem_of_fmap in Hc as (r & Hr & Hin).
    pose proof (proj1 (elem_of_select_fmap _ _ _) Hin) as [Hin' Heq]. cbn in Heq.
    unfold py_eq in Heq. destruct (r !! src) as [a|] eqn:Hsrc, n as [a'|]; try done.
    apply bool_decide_eq_true in Heq as ->. by exists r, a', c.

  - intros (r & a & c & Hr & -> & -> & Hsrc & Hdst). exists c. split; [done|].
    apply list_elem_of_fmap. exists r. split; [done|].
    apply elem_of_select_fmap. split; [done|]. cbn. rewrite Hsrc. cbn.
    by apply bool_decide_eq_true.
Qed.

Lemma leads_to_raises (edf : DataFrame) (src dst : string) (n x n' x' : value) (e : exn) :
  leads_to edf src dst n x = Raise e → leads_to edf src dst n' x' = Raise e.
Proof.
  unfold leads_to. destruct (decide (src ∈ columns edf)) as [Hs|Hs].
  - rewrite !(df_col_present edf src), !res_bind_ok by done.
    destruct (decide (dst ∈ columns edf)) as [Hd|Hd].
    + by rewrite !df_col_present by done.
    + by rewrite !df_col_absent by done.
  - by rewrite !(df_col_absent edf src) by done.
Qed.

(** X4. With the source and destination columns there, [has_edge] returns,
    and its answer is true exactly when some edge row goes from [n1] to
    [n2] or, for [directed=False], from [n2] to [n1].  A missing cell
    ([NaN]) is the end of no edge. *)
Theorem has_edge_spec (g : Plottable) (n1 n2 : value) (directed : bool) :
  _source g ∈ columns (_edges g) → _destination g ∈ columns (_edges g) →
  let edge (a b : value) :=
    ∃ (r : row) x y, r ∈ rows (_edges g) ∧ a = Some x ∧ b = Some y
                     ∧ r !! _source g = Some x ∧ r !! _destination g = Some y in
  ∃ b, has_edge g n1 n2 directed = Ok b
       ∧ (b = true ↔ edge n1 n2 ∨ (directed = false ∧ edge n2 n1)).
Proof.
  intros Hs Hd edge. unfold has_edge, unpack.
  destruct (leads_to_true (_edges g) (_source g) (_destination g) n1 n2 Hs Hd)
    as (forth & -> & Hforth).
  destruct (leads_to_true (_edges g) (_source g) (_destination g) n2 n1 Hs Hd)
    as (back & Hback_eq & Hback).
  rewrite !res_bind_ok. subst edge. cbv beta.
  destruct directed.
  - exists forth. split; [by destruct forth|]. rewrite Hforth.
    split; [tauto|]. by intros [?|[? _]].
  - destruct forth.
    + exists true. split; [done|]. split; [|done]. intros _. left. by apply Hforth.
    + rewrite Hback_eq, res_bind_ok. exists back. split; [by destruct back|].
      rewrite Hback. split; [by right|].
      intros [Hf|[_ Hb]]; [|done]. by apply Hforth in Hf.
Qed.

Lemma has_edge_spec_witness :
  let g := Examples.merged_pair in
  let edge (a b : value) :=
    ∃ (r : row) x y, r ∈ rows (_edges g) ∧ a = Some x ∧ b = Some y
                     ∧ r !! _source g = Some x ∧ r !! _destination g = Some y in
  _source g ∈ columns (_edges g) ∧ _destination g ∈ columns (_edges g)
  ∧ ∃ b, has_edge g (of_str "B") (of_str "A") false = Ok b
         ∧ (b = true ↔ edge (of_str "B") (of_str "A")
                       ∨ (false = false ∧ edge (of_str "A") (of_str "B"))).
Proof.
  intros g edge.
  split; [solve_closed|]. split; [solve_closed|].
  apply (has_edge_spec g (of_str "B") (of_str "A") false); solve_closed.
Defined.

(** X5. The undirected [has_edge] does not depend on the order of its two
    nodes, also when it raises. *)
Theorem has_edge_undirected_symmetric (g : Plottable) (n1 n2 : value) :
  has_edge g n1 n2 false = has_edge g n2 n1 false.
Proof.
  unfold has_edge, unpack.
  destruct (leads_to (_edges g) (_source g) (_destination g) n1 n2) as [forth|e] eqn:Hf.
  - destruct (leads_to (_edges g) (_source g) (_destination g) n2 n1) as [back|e] eqn:Hb.
    + rewrite !res_bind_ok. destruct forth, back; rewrite ?Hf, ?Hb, ?res_bind_ok; done.
    + eapply leads_to_raises in Hb. rewrite Hf in Hb. done.
  - rewrite (leads_to_raises _ _ _ _ _ n2 n1 _ Hf). done.
Qed.

(** X6. With the identity columns there, the directed one-hop
    [get_edges_of_node] returns a list without duplicates, and a node is in
    it exactly when the directed [has_edge] from [n] to that node answers
    true. *)
Theorem get_edges_of_node_has_edge (g : Plottable) (n : value) :
  has_id_columns g →
  ∃ es, get_edges_of_node g n true 1 = Ok es
        ∧ NoDup es
        ∧ ∀ y : scalar, Some y ∈ es ↔ has_edge g n (Some y) true = Ok true.
Proof.
  intros [Hnode Hsrc Hdst].
  unfold get_edges_of_node, get_children, hop, has_edge, leads_to, unpack.
  rewrite !(df_col_present (_edges g) (_source g)), !res_bind_ok by done.
  rewrite (df_col_present (_edges g) (_destination g)), !res_bind_ok by done.
  rewrite (df_col_present (_nodes g) (_node g)), !res_bind_ok by done.
  cbv zeta. cbn [_edges _nodes].
  rewrite !df_col_present, !res_bind_ok by done.
  eexists. split; [done|]. split; [apply NoDup_drop_duplicates|].
  intros y. rewrite elem_of_drop_duplicates. cbn [hop_sources app existsb rows df_mask].
  unfold series_eq. rewrite <- !list_fmap_compose.
  erewrite (list_fmap_ext (_ ∘ _) ((λ c : value, py_eq c n) ∘ (λ r : row, r !! _source g)));
    [|intros i r _; cbn; apply orb_false_r].
  rewrite res_bind_ok, df_col_present, !res_bind_ok by done.
  cbn [rows df_mask]. rewrite <- list_fmap_compose.
  match goal with
  | |- context [existsb ?f ?d] => destruct (existsb f d) eqn:He
  end.
  - split; [done|]. intros _. apply existsb_py_eq in He as (a & [= <-] & Ha). done.
  - split; [|done]. intros Hy. pose proof (proj2 (existsb_py_eq (Some y) _) (ex_intro _ y (conj eq_refl Hy))) as He'.
    rewrite He in He'. done.
Qed.

Lemma get_edges_of_node_has_edge_witness :
  let g := Examples.merged_pair in
  has_id_columns g
  ∧ ∃ es, get_edges_of_node g (of_str "B") true 1 = Ok es
          ∧ NoDup es
          ∧ ∀ y : scalar, Some y ∈ es ↔ has_edge g (of_str "B") (Some y) true = Ok true.
Proof.
  intros g. split; [exact id_columns_merged_pair|].
  apply (get_edges_of_node_has_edge g (of_str "B") id_columns_merged_pair).
Defined.

(** X7. With the attribute column and the identity column there,
    [has_property] returns, and its answer is true exactly when some node
    row has the attribute in [column] and, as its identity, the str that is
    the reference with its delimiters stripped.  An identity cell that
    holds an int matches no reference. *)
Theorem has_property_spec (g : Plottable) (ref_node attribute : value) (column : string) :
  column ∈ columns (_nodes g) → _node g ∈ columns (_nodes g) →
  ∃ b, has_property g ref_node attribute column = Ok b
       ∧ (b = true ↔ ∃ (r : row) a, r ∈ rows (_nodes g) ∧ attribute = Some a
                                    ∧ r !! column = Some a
                                    ∧ r !! _node g = Some (Str (unwrap_key ref_node))).
Proof.
  intros Hc Hn.
  destruct (leads_to_true (_nodes g) column (_node g) attribute
              (of_str (unwrap_key ref_node)) Hc Hn) as (b & Hb & Hiff).
  exists b. split; [exact Hb|]. rewrite Hiff. split.
  - intros (r & a & c & Hr & -> & [= <-] & Ha & Hid). by exists r, a.
  - intros (r & a & Hr & -> & Ha & Hid). by exists r, a, (Str (unwrap_key ref_node)).
Qed.

Lemma has_property_spec_witness :
  let g := Examples.merged_pair in
  "type" ∈ columns (_nodes g) ∧ _node g ∈ columns (_nodes g)
  ∧ ∃ b, has_property g (of_str "~A~") (of_str "x") "type" = Ok b
         ∧ (b = true ↔ ∃ (r : row) a, r ∈ rows (_nodes g) ∧ of_str "x" = Some a
                                      ∧ r !! "type" = Some a
                                      ∧ r !! _node g = Some (Str (unwrap_key (of_str "~A~")))).
Proof.
  intros g. split; [solve_closed|]. split; [solve_closed|].
  apply (has_property_spec g (of_str "~A~") (of_str "x") "type"); solve_closed.
Defined.

(** ** Preparing the tables: [check_default_columns_present_and_coerce_to_string] *)

Lemma set_series_coerce (df : DataFrame) (l : string) :
  set_series df l (of_str <$> astype_str ((λ r : row, r !! l) <$> rows df))
  = mkDF (add_column l (columns df)) (coerce_cell l <$> rows df).
Proof.
  unfold set_series, astype_str. f_equal.
  rewrite <- !list_fmap_compose, zip_with_fmap_r, zip_with_diag. done.
Qed.

Lemma first_value_fmap {A : Type} (f : A → value) (l : list A) :
  first_value (f <$> l) = match l with [] => Raise IndexError | x :: _ => Ok (f x) end.
Proof. by destruct l. Qed.

(** X8. On a graph whose tables have their identity columns and no pending
    column, the preparation raises [IndexError] when a table has no row;
    otherwise it adds the pending columns, filled with the default, and
    turns every identity into its text, leaving all other cells. *)
Theorem check_default_fresh (g : Plottable) :
  has_id_columns g →
  COLLAPSE_NODE ∉ columns (_nodes g) → COLLAPSE_SRC ∉ columns (_edges g) →
  check_default_columns_present_and_coerce_to_string g
  = if bool_decide (rows (_nodes g) = [] ∨ rows (_edges g) = [])
    then Raise IndexError
    else Ok (mkPlottable (prepared_nodes g) (prepared_edges g)
                         (_source g) (_destination g) (_node g)).
Proof.
  intros [Hnode Hsrc Hdst] Hcn Hcs.
  unfold check_default_columns_present_and_coerce_to_string, unpack.
  rewrite (decide_True (P := COLLAPSE_NODE ∉ columns (_nodes g))) by done. cbv zeta.
  rewrite (df_col_present (set_column (_nodes g) _ _) (_node g)), res_bind_ok
    by (cbn [columns set_column]; rewrite !elem_of_add_column; tauto).
  rewrite set_series_coerce.
  rewrite (df_col_present (mkDF _ _) (_node g)), res_bind_ok
    by (cbn [columns set_column]; rewrite !elem_of_add_column; tauto).
  cbn [rows set_column columns]. rewrite first_value_fmap.
  destruct (rows (_nodes g)) as [|r rs] eqn:Hrows.
  { rewrite bool_decide_true by tauto. reflexivity. }
  cbn [fmap list_fmap]. cbv beta iota. rewrite !res_bind_ok.
  rewrite (decide_True (P := COLLAPSE_SRC ∉ columns (_edges g))) by done.
  rewrite (df_col_present (set_column _ _ _) (_source g)), res_bind_ok
    by (cbn [columns set_column]; rewrite !elem_of_add_column; tauto).
  rewrite set_series_coerce.
  rewrite (df_col_present (mkDF _ _) (_destination g)), res_bind_ok
    by (cbn [columns set_column]; rewrite !elem_of_add_column; tauto).
  rewrite (set_series_coerce (mkDF _ _)).
  rewrite (df_col_present (mkDF _ _) (_source g)), res_bind_ok
    by (cbn [columns set_column]; rewrite !elem_of_add_column; tauto).
  cbn [rows set_column columns]. rewrite first_value_fmap.
  destruct (rows (_edges g)) as [|e es] eqn:Hedges.
  { rewrite bool_decide_true by tauto. reflexivity. }
  rewrite bool_decide_false by (by intros [?|?]).
  cbn [fmap list_fmap]. cbv beta iota. rewrite !res_bind_ok.
  unfold prepared_nodes, prepared_edges, set_edges, set_nodes.
  cbn [_nodes _edges _source _destination _node].
  rewrite ?(add_column_present (_node g)), ?(add_column_present (_source g)),
          ?(add_column_present (_destination g))
    by (rewrite !elem_of_add_column; tauto).
  rewrite Hrows, Hedges. cbn [fmap list_fmap compose].
  by rewrite <- !list_fmap_compose.
Qed.

Lemma id_columns_two_cycle : has_id_columns Examples.two_cycle.
Proof. constructor; solve_closed. Defined.

Lemma check_default_fresh_witness :
  let g := Examples.two_cycle in
  has_id_columns g
  ∧ (COLLAPSE_NODE ∉ columns (_nodes g)) ∧ (COLLAPSE_SRC ∉ columns (_edges g))
  ∧ check_default_columns_present_and_coerce_to_string g
    = if bool_decide (rows (_nodes g) = [] ∨ rows (_edges g) = [])
      then Raise IndexError
      else Ok (mkPlottable (prepared_nodes g) (prepared_edges g)
                           (_source g) (_destination g) (_node g)).
Proof.
  intros g. split; [exact id_columns_two_cycle|].
  split; [solve_closed|]. split; [solve_closed|].
  apply (check_default_fresh g id_columns_two_cycle); solve_closed.
Defined.

Ltac raised :=
  let H := fresh in intros H; cbv [mbind res_bind] in H; discriminate H.


(** X9. When the preparation returns, the node table has its pending
    column and the edge table its source-side one, and preparing the result
    again changes nothing. *)
Theorem check_default_idempotent (g g' : Plottable) :
  check_default_columns_present_and_coerce_to_string g = Ok g' →
  COLLAPSE_NODE ∈ columns (_nodes g') ∧ COLLAPSE_SRC ∈ columns (_edges g')
  ∧ check_default_columns_present_and_coerce_to_string g' = Ok g'.
Proof.
  intros Hok.
  assert (COLLAPSE_NODE ∈ columns (_nodes g') ∧ COLLAPSE_SRC ∈ columns (_edges g'))
    as [Hn Hs]; [|by auto using check_default_present].
  revert Hok. unfold check_default_columns_present_and_coerce_to_string, unpack.
  cbv zeta.
  assert (∀ g1 : Plottable,
            (COLLAPSE_NODE ∈ columns (_nodes g1)) →
            (if decide (COLLAPSE_SRC ∉ columns (_edges g)) then
               s ← df_col (set_column (set_column (_edges g) COLLAPSE_SRC (of_str DEFAULT_VAL))
                                      COLLAPSE_DST (of_str DEFAULT_VAL)) (_source g);
               d ← df_col (set_series (set_column (set_column (_edges g) COLLAPSE_SRC
                                                     (of_str DEFAULT_VAL))
                                         COLLAPSE_DST (of_str DEFAULT_VAL))
                             (_source g) (of_str <$> astype_str s)) (_destination g);
               s0 ← df_col (set_series
                              (set_series (set_column (set_column (_edges g) COLLAPSE_SRC
                                                         (of_str DEFAULT_VAL))
                                             COLLAPSE_DST (of_str DEFAULT_VAL))
                                 (_source g) (of_str <$> astype_str s))
                              (_destination g) (of_str <$> astype_str d)) (_source g);
               _ ← first_value s0;
               Ok (set_edges g1
                     (set_series
                        (set_series (set_column (set_column (_edges g) COLLAPSE_SRC
                                                   (of_str DEFAULT_VAL))
                                       COLLAPSE_DST (of_str DEFAULT_VAL))
                           (_source g) (of_str <$> astype_str s))
                        (_destination g) (of_str <$> astype_str d)))
             else Ok g1) = Ok g' →
            _edges g1 = _edges g →
            COLLAPSE_NODE ∈ columns (_nodes g') ∧ COLLAPSE_SRC ∈ columns (_edges g'))
    as Hedges.
  { intros g1 Hg1 Hok Hsame. revert Hok. case_decide as Hcs.
    - destruct (df_col _ (_source g)) as [s|]; [|raised]. rewrite res_bind_ok.
      destruct (df_col _ (_destination g)) as [d|]; [|raised]. rewrite res_bind_ok.
      destruct (df_col _ (_source g)) as [s0|]; [|raised]. rewrite res_bind_ok.
      destruct (first_value s0); [|raised]. rewrite res_bind_ok.
      intros [= <-]. split; [done|]. cbn. rewrite !elem_of_add_column. tauto.
    - intros [= <-]. split; [done|]. rewrite Hsame.
      by destruct (decide (COLLAPSE_SRC ∈ columns (_edges g))). }
  destruct (decide (COLLAPSE_NODE ∉ columns (_nodes g))) as [Hcn|Hcn].
  - destruct (df_col _ (_node g)) as [ids|]; [|raised]. rewrite res_bind_ok.
    destruct (df_col _ (_node g)) as [ids0|]; [|raised]. rewrite res_bind_ok.
    destruct (first_value ids0); [|raised]. rewrite !res_bind_ok.
    intros Hok. eapply Hedges; [|exact Hok|done].
    cbn. rewrite !elem_of_add_column. tauto.
  - rewrite res_bind_ok. intros Hok. eapply Hedges; [|exact Hok|done].
    by destruct (decide (COLLAPSE_NODE ∈ columns (_nodes g))).
Qed.

Lemma check_default_idempotent_witness :
  check_default_columns_present_and_coerce_to_string Examples.two_cycle
  = Ok Prepared.two_cycle
  ∧ (COLLAPSE_NODE ∈ columns (_nodes Prepared.two_cycle))
  ∧ (COLLAPSE_SRC ∈ columns (_edges Prepared.two_cycle))
  ∧ check_default_columns_present_and_coerce_to_string Prepared.two_cycle
    = Ok Prepared.two_cycle.
Proof.
  split; [vm_compute; reflexivity|].
  apply (check_default_idempotent Examples.two_cycle Prepared.two_cycle).
  vm_compute; reflexivity.
Defined.

(** ** Literal patterns *)

Lemma parse_go_literal (pat : string) (items : list (Re.regex * bool)) :
  literal pat = true →
  Re.parse_go pat [] ([], items)
  = Re.Parsed (foldl (λ acc it, Re.Cat it.1 acc) (lit pat) items).
Proof.
  revert items. induction pat as [|c pat IH]; intros items Hlit; [done|].
  cbn [literal] in Hlit. apply andb_prop in Hlit as [Hc Hpat].
  apply negb_true_iff, bool_decide_eq_false in Hc.
  rewrite !elem_of_cons, elem_of_nil in Hc.
  cbn [Re.parse_go fst snd].
  rewrite !decide_False by (intros ->; tauto).
  rewrite !bool_decide_false by (rewrite !elem_of_cons, elem_of_nil; tauto).
  unfold Re.push. cbn [fst snd]. by rewrite IH.
Qed.

Lemma parse_literal (pat : string) : literal pat = true → Re.parse pat = Re.Parsed (lit pat).
Proof. intros H. unfold Re.parse. by rewrite parse_go_literal. Qed.

Lemma match_at_Null (s : string) : Re.match_at Re.Null s = false.
Proof. induction s; [done|]. done. Qed.

Lemma match_at_Alt (r1 r2 : Re.regex) (s : string) :
  Re.match_at (Re.Alt r1 r2) s = Re.match_at r1 s || Re.match_at r2 s.
Proof.
  revert r1 r2. induction s as [|c s IH]; intros r1 r2; cbn.
  - by rewrite !orb_false_r.
  - rewrite IH. destruct (Re.nullable r1), (Re.nullable r2); cbn; try done.
    by rewrite orb_true_r.
Qed.

Lemma match_at_Cat_Null (r : Re.regex) (s : string) : Re.match_at (Re.Cat Re.Null r) s = false.
Proof. induction s; [done|]. done. Qed.

Lemma match_at_Cat_Eps (r : Re.regex) (s : string) :
  Re.match_at (Re.Cat Re.Eps r) s = Re.match_at r s.
Proof.
  destruct s as [|c s]; cbn; [done|].
  by rewrite match_at_Alt, match_at_Cat_Null.
Qed.

Lemma prefix_cons (a b : ascii) (s t : string) :
  String.prefix (String a s) (String b t)
  = if ascii_dec a b then String.prefix s t else false.
Proof. reflexivity. Qed.

Lemma match_at_lit (t s : string) : Re.match_at (lit t) s = String.prefix t s.
Proof.
  revert s. induction t as [|a t IH]; intros s; [by destruct s|].
  destruct s as [|c s]; [done|]. cbn.
  destruct (decide (c = a)) as [->|Hne].
  - rewrite match_at_Cat_Eps, IH. by destruct (ascii_dec a a).
  - rewrite match_at_Cat_Null. by destruct (ascii_dec a c) as [->|].
Qed.

Lemma search_lit (t s : string) : Re.search (lit t) s = str_in t s.
Proof.
  induction s as [|c s IH]; cbn [Re.search str_in]; rewrite match_at_lit; [done|].
  by rewrite IH.
Qed.

(** ** Substrings and tokens *)

Lemma prefix_refl (s : string) : String.prefix s s = true.
Proof.
  induction s as [|c s IH]; [done|]. rewrite prefix_cons. by destruct (ascii_dec c c).
Qed.

Lemma prefix_app (s t : string) : String.prefix s (s +:+ t) = true.
Proof.
  induction s as [|c s IH]; [by destruct t|].
  change (String c s +:+ t) with (String c (s +:+ t)). rewrite prefix_cons.
  by destruct (ascii_dec c c).
Qed.

Lemma str_in_refl (s : string) : str_in s s = true.
Proof. destruct s; [done|]. by rewrite str_in_cons, prefix_refl. Qed.

Lemma str_in_app_r (p a b : string) : str_in p b = true → str_in p (a +:+ b) = true.
Proof.
  intros Hb. induction a as [|c a IH]; [done|].
  change (String c a +:+ b) with (String c (a +:+ b)). rewrite str_in_cons, IH.
  apply orb_true_r.
Qed.

Lemma str_in_app_l (p b : string) : str_in p (p +:+ b) = true.
Proof.
  destruct (p +:+ b) eqn:Happ.
  - destruct p; [done|discriminate Happ].
  - by rewrite str_in_cons, <- Happ, prefix_app.
Qed.

Lemma rev_app_app (cur s : string) : String.rev_app cur s = String.rev cur +:+ s.
Proof.
  rewrite <- (rev_involutive cur) at 1. unfold String.rev at 1.
  by rewrite rev_app_rev_app.
Qed.

Lemma elem_of_flush (t cur : string) : t ∈ flush cur ↔ cur ≠ "" ∧ t = String.rev cur.
Proof.
  destruct cur as [|c cur]; cbn [flush].
  - rewrite elem_of_nil. tauto.
  - rewrite list_elem_of_singleton. split; [by intros ->|by intros [_ ->]].
Qed.

(** A token of a string occurs in it. *)
Lemma split_go_str_in (t cur s : string) :
  t ∈ split_go cur s → str_in t (String.rev_app cur s) = true.
Proof.
  revert cur. induction s as [|c s IH]; intros cur; cbn [split_go].
  - intros [_ ->]%elem_of_flush. apply str_in_refl.
  - destruct (is_space c).
    + rewrite elem_of_app. intros [[_ ->]%elem_of_flush|Ht].
      * rewrite rev_app_app. apply str_in_app_l.
      * rewrite rev_app_app. apply str_in_app_r. rewrite str_in_cons.
        apply IH in Ht. change (String.rev_app "" s) with s in Ht. rewrite Ht.
        apply orb_true_r.
    + intros Ht. by apply IH in Ht.
Qed.

Lemma prefix_app_space (p a b : string) (c : ascii) :
  is_space c = true → no_space p = true →
  String.prefix p (a +:+ String c b) = true → String.prefix p a = true.
Proof.
  intros Hc. revert a. induction p as [|d p IH]; intros a Hp; [by destruct a|].
  cbn [no_space] in Hp. apply andb_prop in Hp as [Hd Hp].
  destruct a as [|x a].
  - change ("" +:+ String c b) with (String c b). rewrite prefix_cons.
    destruct (ascii_dec d c) as [->|]; [|done]. by rewrite Hc in Hd.
  - change (String x a +:+ String c b) with (String x (a +:+ String c b)).
    rewrite !prefix_cons. destruct (ascii_dec d x); [|done]. by apply IH.
Qed.

(** An occurrence of a text without space does not reach over a space. *)
Lemma str_in_app_space (p a b : string) (c : ascii) :
  is_space c = true → no_space p = true → p ≠ "" →
  str_in p (a +:+ String c b) = true → str_in p a = true ∨ str_in p b = true.
Proof.
  intros Hc Hp Hne. induction a as [|x a IH].
  - change ("" +:+ String c b) with (String c b). rewrite str_in_cons.
    intros [Hpre|?]%orb_prop; [|by right].
    destruct p as [|d p]; [done|]. rewrite prefix_cons in Hpre. cbn [no_space] in Hp.
    destruct (ascii_dec d c) as [->|]; [|done]. by rewrite Hc in Hp.
  - change (String x a +:+ String c b) with (String x (a +:+ String c b)).
    rewrite !str_in_cons. intros [Hpre|Hin]%orb_prop.
    + left. change (String x (a +:+ String c b)) with (String x a +:+ String c b) in Hpre.
      by rewrite (prefix_app_space _ _ _ _ Hc Hp Hpre).
    + destruct (IH Hin) as [->|?]; [left; apply orb_true_r|by right].
Qed.

(** An occurrence of a text without space lies inside one token. *)
Lemma str_in_split_go (p cur s : string) :
  no_space p = true → p ≠ "" →
  str_in p (String.rev_app cur s) = true → ∃ t, t ∈ split_go cur s ∧ str_in p t = true.
Proof.
  intros Hp Hne. revert cur. induction s as [|c s IH]; intros cur; cbn [split_go].
  - change (String.rev_app cur "") with (String.rev cur). intros Hin.
    exists (String.rev cur). split; [|done]. apply elem_of_flush. split; [|done].
    intros ->. by destruct p.
  - destruct (is_space c) eqn:Hc.
    + rewrite rev_app_app. intros [Hin|Hin]%str_in_app_space; try done.
      * exists (String.rev cur). split; [|done]. apply elem_of_app. left.
        apply elem_of_flush. split; [|done]. intros ->. by destruct p.
      * destruct (IH "" Hin) as (t & Ht & Hpt). exists t. split; [|done].
        apply elem_of_app. by right.
    + apply (IH (String c cur)).
Qed.

Lemma str_in_no_wrap (q t : string) :
  str_in WRAP t = false → str_in (WRAP +:+ q) t = false.
Proof.
  induction t as [|c t IH]; [done|]. rewrite str_in_wrap_cons, str_in_cons.
  intros [Hc Ht]%orb_false_elim. rewrite (IH Ht), orb_false_r.
  change (WRAP +:+ q) with (String "~" q). rewrite prefix_cons.
  destruct (ascii_dec "~" c) as [<-|]; [|done]. by rewrite bool_decide_true in Hc.
Qed.

Lemma prefix_wrapped (n x r : string) :
  str_in WRAP n = false → str_in WRAP x = false →
  String.prefix (n +:+ WRAP) (x +:+ WRAP +:+ r) = true → n = x.
Proof.
  revert x. induction n as [|d n IH]; intros x Hn Hx.
  - destruct x as [|c x]; [done|]. rewrite str_in_wrap_cons in Hx.
    apply orb_false_elim in Hx as [Hc _].
    change ("" +:+ WRAP) with (String "~" "").
    change (String c x +:+ WRAP +:+ r) with (String c (x +:+ WRAP +:+ r)).
    rewrite prefix_cons. destruct (ascii_dec "~" c) as [<-|]; [|done].
    by rewrite bool_decide_true in Hc.
  - rewrite str_in_wrap_cons in Hn. apply orb_false_elim in Hn as [Hd Hn].
    change (String d n +:+ WRAP) with (String d (n +:+ WRAP)).
    destruct x as [|c x].
    + change ("" +:+ WRAP +:+ r) with (String "~" r). rewrite prefix_cons.
      destruct (ascii_dec d "~") as [->|]; [|done]. by rewrite bool_decide_true in Hd.
    + rewrite str_in_wrap_cons in Hx. apply orb_false_elim in Hx as [_ Hx].
      change (String c x +:+ WRAP +:+ r) with (String c (x +:+ WRAP +:+ r)).
      rewrite prefix_cons.
      destruct (ascii_dec d c) as [->|]; [|done]. intros Hpre. f_equal. by apply IH.
Qed.

Lemma str_in_wrapped_tail (n x : string) :
  str_in WRAP x = false → str_in (WRAP +:+ n +:+ WRAP) (x +:+ WRAP) = false.
Proof.
  change (WRAP +:+ n +:+ WRAP) with (String "~" (n +:+ WRAP)).
  induction x as [|c x IH]; intros Hx.
  - change ("" +:+ WRAP) with (String "~" ""). rewrite str_in_cons, prefix_cons.
    destruct (ascii_dec "~" "~"); [|done]. by destruct n.
  - rewrite str_in_wrap_cons in Hx. apply orb_false_elim in Hx as [Hc Hx].
    change (String c x +:+ WRAP) with (String c (x +:+ WRAP)).
    rewrite str_in_cons, (IH Hx), orb_false_r, prefix_cons.
    destruct (ascii_dec "~" c) as [<-|]; [|done]. by rewrite bool_decide_true in Hc.
Qed.

(** A wrapped token holds no wrapped text but itself. *)
Lemma str_in_wrapped (n t : string) :
  str_in WRAP n = false → wrapped t →
  str_in (WRAP +:+ n +:+ WRAP) t = true → t = WRAP +:+ n +:+ WRAP.
Proof.
  intros Hn (x & -> & Hx).
  change (WRAP +:+ x +:+ WRAP) with (String "~" (x +:+ WRAP)). rewrite str_in_cons.
  rewrite str_in_wrapped_tail, orb_false_r by done.
  change (WRAP +:+ n +:+ WRAP) with (String "~" (n +:+ WRAP)). rewrite prefix_cons.
  destruct (ascii_dec "~" "~"); [|done].
  rewrite <- (append_empty_r WRAP) at 2. intros Hpre.
  by rewrite (prefix_wrapped n x "" Hn Hx Hpre).
Qed.

Lemma no_space_app (s t : string) : no_space (s +:+ t) = no_space s && no_space t.
Proof.
  induction s as [|c s IH]; [done|].
  change (String c s +:+ t) with (String c (s +:+ t)). cbn [no_space]. rewrite IH.
  by destruct (is_space c).
Qed.

(** The lookup of the store on one key. *)
Lemma str_in_wrap_key (node : value) (key : string) :
  str_in WRAP (py_str node) = false → no_space (py_str node) = true →
  well_wrapped key →
  str_in (wrap_key node) key = true ↔ wrap_key node ∈ split key.
Proof.
  intros Hn Hsp Hkey. unfold wrap_key. rewrite Hn. split.
  - intros Hin. destruct (str_in_split_go (WRAP +:+ py_str node +:+ WRAP) "" key)
      as (t & Ht & Hpt); [| |done|].
    { change (WRAP +:+ py_str node +:+ WRAP) with (String "~" (py_str node +:+ WRAP)).
      cbn [no_space]. by rewrite no_space_app, Hsp. }
    { done. }
    pose proof (proj1 (Forall_forall _ _) Hkey t Ht) as [Hno|Hw].
    + by rewrite (str_in_no_wrap _ _ Hno) in Hpt.
    + by rewrite <- (str_in_wrapped _ _ Hn Hw Hpt).
  - intros Hin. by apply split_go_str_in in Hin.
Qed.

Lemma well_wrapped_check (key : string) :
  forallb (λ t, negb (str_in WRAP t)
                || bool_decide (t = WRAP +:+ unwrap_key (of_str t) +:+ WRAP)) (split key)
  = true →
  well_wrapped key.
Proof.
  intros Hall. apply Forall_forall. intros t Ht.
  pose proof (proj1 (forallb_forall _ _) Hall t (proj1 (list_elem_of_In _ _) Ht)) as Hok.
  apply orb_prop in Hok as [Hno%negb_true_iff|Heq%bool_decide_eq_true]; [by left|].
  right. exists (unwrap_key (of_str t)). split; [done|]. apply str_in_replace_go_wrap.
Qed.

Lemma elem_of_split_foldl (t top : string) (keys : list value) :
  t ∈ split (foldl (λ topkey key, topkey +:+ " " +:+ py_str key) top keys)
  ↔ t ∈ split top ∨ ∃ key, key ∈ keys ∧ t ∈ split (py_str key).
Proof.
  revert top. induction keys as [|key keys IH]; intros top; cbn [foldl].
  - split; [by left|]. intros [?|(? & []%elem_of_nil & _)]. done.
  - rewrite IH, split_app_space, elem_of_app. split.
    + intros [[?|?]|(key' & ? & ?)]; [by left|right; exists key|right; exists key'];
        (split; [|done]); by constructor.
    + intros [?|(key' & [->|?]%elem_of_cons & ?)]; [by left; left|by left; right|].
      right. by exists key'.
Qed.

Lemma elem_of_np_tokens_foldl (t top : string) (keys : list value) :
  t ∈ np_tokens (foldl (λ topkey key, topkey +:+ " " +:+ py_str key) top keys)
  ↔ t ∈ np_tokens top ∨ ∃ key, key ∈ keys ∧ t ∈ np_tokens (py_str key).
Proof.
  rewrite !elem_of_np_tokens. setoid_rewrite elem_of_np_tokens.
  setoid_rewrite elem_of_split_foldl. split.
  - intros (Hne & t0 & [Ht0|(key & Hkey & Ht0)] & ->); [left|right]; eauto 8.
  - intros [(Hne & t0 & Ht0 & ->)|(key & Hkey & Hne & t0 & Ht0 & ->)]; eauto 10.
Qed.

(** ** ClusterStore: [get_cluster_store_keys], [in_cluster_store_keys], [melt],
    [get_new_node_name] *)

Section Store.

Variable re_other : string → res (string → bool).

Lemma get_cluster_store_keys_lit (ndf : DataFrame) (node : value) :
  literal (wrap_key node) = true → COLLAPSE_NODE ∈ columns ndf →
  get_cluster_store_keys re_other ndf node
  = Ok ((λ r : row, str_in (wrap_key node) (py_str (r !! COLLAPSE_NODE))) <$> rows ndf).
Proof.
  intros Hlit Hcol.
  unfold get_cluster_store_keys, str_contains, re_compile. cbv zeta.
  rewrite df_col_present, res_bind_ok, parse_literal, res_bind_ok by done.
  unfold astype_str. rewrite <- !list_fmap_compose. f_equal.
  apply list_fmap_ext. intros i r _. cbn. apply search_lit.
Qed.

(** X10. When the encoded identity holds none of the characters that [re]
    gives a meaning to, the lookup of the store is a substring test: a row
    is picked exactly when the encoded identity occurs in the text of its
    pending key, and [in_cluster_store_keys] tells whether some row is. *)
Theorem get_cluster_store_keys_literal (ndf : DataFrame) (node : value) :
  literal (wrap_key node) = true → COLLAPSE_NODE ∈ columns ndf →
  get_cluster_store_keys re_other ndf node
  = Ok ((λ r : row, str_in (wrap_key node) (py_str (r !! COLLAPSE_NODE))) <$> rows ndf)
  ∧ ∃ b, in_cluster_store_keys re_other ndf node = Ok b
         ∧ (b = true ↔ ∃ r : row, r ∈ rows ndf
                         ∧ str_in (wrap_key node) (py_str (r !! COLLAPSE_NODE)) = true).
Proof.
  intros Hlit Hcol.
  pose proof (get_cluster_store_keys_lit ndf node Hlit Hcol) as Hkeys.
  split; [exact Hkeys|].
  unfold in_cluster_store_keys. rewrite Hkeys, res_bind_ok.
  eexists. split; [done|]. rewrite existsb_exists. split.
  - intros (b & Hb%list_elem_of_In & Hid). apply list_elem_of_fmap in Hb as (r & -> & Hr).
    by exists r.
  - intros (r & Hr & Hin). exists true. split; [|done].
    apply list_elem_of_In, list_elem_of_fmap. by exists r.
Qed.

(** X11. The lookup of the store is exact on well-formed input: when the
    identity holds no delimiter, no white space and no character that [re]
    gives a meaning to, and every token of every pending key either holds
    no delimiter or is a wrapped text without delimiter, a row is picked
    exactly when the encoded identity is one of the tokens of its pending
    key. *)
Theorem in_cluster_store_keys_exact (ndf : DataFrame) (node : value) :
  literal (wrap_key node) = true → str_in WRAP (py_str node) = false →
  no_space (py_str node) = true →
  COLLAPSE_NODE ∈ columns ndf →
  Forall (λ r : row, well_wrapped (py_str (r !! COLLAPSE_NODE))) (rows ndf) →
  get_cluster_store_keys re_other ndf node
  = Ok ((λ r : row, bool_decide (wrap_key node ∈ split (py_str (r !! COLLAPSE_NODE))))
          <$> rows ndf)
  ∧ ∃ b, in_cluster_store_keys re_other ndf node = Ok b
         ∧ (b = true ↔ ∃ r : row, r ∈ rows ndf
                         ∧ wrap_key node ∈ split (py_str (r !! COLLAPSE_NODE))).
Proof.
  intros Hlit Hn Hsp Hcol Hkeys.
  assert (get_cluster_store_keys re_other ndf node
          = Ok ((λ r : row, bool_decide (wrap_key node ∈ split (py_str (r !! COLLAPSE_NODE))))
                  <$> rows ndf)) as Hmask.
  { rewrite get_cluster_store_keys_lit by done. f_equal.
    apply Forall_fmap_ext. eapply Forall_impl; [exact Hkeys|]. intros r Hr. cbv beta.
    pose proof (str_in_wrap_key node _ Hn Hsp Hr) as Hiff.
    destruct (str_in (wrap_key node) (py_str (r !! COLLAPSE_NODE))).
    - symmetry. apply bool_decide_eq_true. by apply Hiff.
    - symmetry. apply bool_decide_eq_false. intros Hin. by apply Hiff in Hin. }
  split; [exact Hmask|].
  unfold in_cluster_store_keys. rewrite Hmask, res_bind_ok.
  eexists. split; [done|]. rewrite existsb_exists. split.
  - intros (b & Hb%list_elem_of_In & Hid). apply list_elem_of_fmap in Hb as (r & -> & Hr).
    exists r. split; [done|]. by apply bool_decide_eq_true in Hid.
  - intros (r & Hr & Hin). exists true. split; [|done].
    apply list_elem_of_In, list_elem_of_fmap. exists r. split; [|done].
    symmetry. by apply bool_decide_eq_true.
Qed.

(** X12. On a node table without the pending-key column the store cannot
    be read: the lookups, [melt], [get_new_node_name] and
    [collapse_nodes_and_edges] all raise [KeyError] for that column,
    whatever the identities, also one that is no regular expression. *)
Theorem cluster_store_needs_column (g : Plottable) (parent child : value) :
  COLLAPSE_NODE ∉ columns (_nodes g) →
  get_cluster_store_keys re_other (_nodes g) child = Raise (KeyError COLLAPSE_NODE)
  ∧ in_cluster_store_keys re_other (_nodes g) child = Raise (KeyError COLLAPSE_NODE)
  ∧ melt re_other (_nodes g) child = Raise (KeyError COLLAPSE_NODE)
  ∧ get_new_node_name re_other (_nodes g) parent child = Raise (KeyError COLLAPSE_NODE)
  ∧ collapse_nodes_and_edges re_other g parent child = Raise (KeyError COLLAPSE_NODE).
Proof.
  intros Hno.
  assert (∀ node, get_cluster_store_keys re_other (_nodes g) node
                  = Raise (KeyError COLLAPSE_NODE)) as Hkeys.
  { intros node. unfold get_cluster_store_keys. cbv zeta. rewrite df_col_absent by done. reflexivity. }
  assert (get_new_node_name re_other (_nodes g) parent child
          = Raise (KeyError COLLAPSE_NODE)) as Hname.
  { unfold get_new_node_name, in_cluster_store_keys. rewrite !Hkeys. reflexivity. }
  split; [done|]. split; [|split; [|split; [done|]]].
  - unfold in_cluster_store_keys. rewrite !Hkeys. reflexivity.
  - unfold melt. rewrite !Hkeys. reflexivity.
  - unfold collapse_nodes_and_edges, unpack. rewrite Hname. reflexivity.
Qed.

Lemma get_cluster_store_keys_ok (ndf : DataFrame) (node : value) (mask : list bool) :
  get_cluster_store_keys re_other ndf node = Ok mask → COLLAPSE_NODE ∈ columns ndf.
Proof.
  unfold get_cluster_store_keys. cbv zeta.
  destruct (df_col ndf COLLAPSE_NODE) as [keys|] eqn:Hkeys; [|raised].
  intros _. by apply df_col_ok in Hkeys as [? _].
Qed.

(** What a successful [melt] went through. *)
Lemma melt_inv (ndf : DataFrame) (node : value) (k : string) :
  melt re_other ndf node = Ok k →
  ∃ mask, get_cluster_store_keys re_other ndf node = Ok mask
    ∧ k = if bool_decide (select (rows ndf) mask = []) then wrap_key node
          else reduce_key (foldl (λ topkey key, topkey +:+ " " +:+ py_str key)
                                 (wrap_key node)
                                 ((λ r : row, r !! COLLAPSE_NODE) <$> select (rows ndf) mask)).
Proof.
  unfold melt.
  destruct (get_cluster_store_keys re_other ndf node) as [mask|] eqn:Hmask; [|raised].
  rewrite res_bind_ok. cbv zeta. pose proof (get_cluster_store_keys_ok _ _ _ Hmask) as Hcol.
  intros Hk. exists mask. split; [done|]. revert Hk.
  unfold df_empty. cbn [columns rows df_mask].
  rewrite (bool_decide_false (columns ndf = []))
    by (by intros He; rewrite He in Hcol; apply elem_of_nil in Hcol).
  cbn [orb]. case_bool_decide; cbn [negb]; [by intros [= <-]|].
  rewrite df_col_present, res_bind_ok by done. by intros [= <-].
Qed.

Lemma elem_of_np_tokens_melted (t : string) (node : value) (rs : list row) :
  t ∈ np_tokens (if bool_decide (rs = []) then wrap_key node
                 else reduce_key (foldl (λ topkey key, topkey +:+ " " +:+ py_str key)
                                        (wrap_key node)
                                        ((λ r : row, r !! COLLAPSE_NODE) <$> rs)))
  ↔ t ∈ np_tokens (wrap_key node)
    ∨ ∃ r : row, r ∈ rs ∧ t ∈ np_tokens (py_str (r !! COLLAPSE_NODE)).
Proof.
  case_bool_decide as Hrs.
  - subst rs. split; [by left|]. intros [?|(? & []%elem_of_nil & _)]. done.
  - rewrite elem_of_np_tokens_reduce_key, elem_of_np_tokens_foldl.
    split; (intros [?|Hr]; [by left|right]).
    + destruct Hr as (key & (r & -> & Hr)%list_elem_of_fmap & Ht). by exists r.
    + destruct Hr as (r & Hr & Ht). exists (r !! COLLAPSE_NODE). split; [|done].
      apply list_elem_of_fmap. by exists r.
Qed.

(** X13. When [melt] returns, the lookup of the store succeeded.  With no
    row picked the result is the encoded identity as it is.  Otherwise
    the result is a key whose tokens are in strictly ascending order and
    are exactly the tokens, as [np.unique] hands them back, of the encoded
    identity and of the pending keys of the picked rows. *)
Theorem melt_tokens (ndf : DataFrame) (node : value) (k : string) :
  melt re_other ndf node = Ok k →
  ∃ mask, get_cluster_store_keys re_other ndf node = Ok mask
    ∧ (select (rows ndf) mask = [] → k = wrap_key node)
    ∧ (select (rows ndf) mask ≠ [] →
       StronglySorted str_lt (split k)
       ∧ ∀ t, t ∈ split k
              ↔ t ∈ np_tokens (wrap_key node)
                ∨ ∃ r : row, r ∈ select (rows ndf) mask
                             ∧ t ∈ np_tokens (py_str (r !! COLLAPSE_NODE))).
Proof.
  intros Hk. destruct (melt_inv _ _ _ Hk) as (mask & Hmask & ->).
  exists mask. split; [done|]. split.
  - intros He. by rewrite bool_decide_true.
  - intros Hne. rewrite bool_decide_false by done.
    split; [apply split_reduce_key_sorted|]. intros t.
    rewrite elem_of_split_reduce_key, elem_of_np_tokens_foldl.
    split; (intros [?|Hr]; [by left|right]).
    + destruct Hr as (key & (r & -> & Hr)%list_elem_of_fmap & Ht). by exists r.
    + destruct Hr as (r & Hr & Ht). exists (r !! COLLAPSE_NODE). split; [|done].
      apply list_elem_of_fmap. by exists r.
Qed.

(** X14. When [get_new_node_name] returns, the name is a key whose tokens
    are in strictly ascending order and are exactly the tokens, as
    [np.unique] hands them back, of the two encoded identities and of the
    pending keys of the rows the store picks for one of the two nodes: the
    child when both are in the store, the parent otherwise.  The stored
    keys of the other node are not read. *)
Theorem get_new_node_name_tokens (ndf : DataFrame) (parent child : value) (k : string) :
  get_new_node_name re_other ndf parent child = Ok k →
  StronglySorted str_lt (split k)
  ∧ ∃ (ckey pkey : bool) (mask : list bool),
      in_cluster_store_keys re_other ndf child = Ok ckey
      ∧ in_cluster_store_keys re_other ndf parent = Ok pkey
      ∧ get_cluster_store_keys re_other ndf (if ckey && pkey then child else parent) = Ok mask
      ∧ ∀ t, t ∈ split k
             ↔ t ∈ np_tokens (wrap_key parent) ∨ t ∈ np_tokens (wrap_key child)
               ∨ ∃ r : row, r ∈ select (rows ndf) mask
                            ∧ t ∈ np_tokens (py_str (r !! COLLAPSE_NODE)).
Proof.
  unfold get_new_node_name.
  destruct (in_cluster_store_keys re_other ndf child) as [ckey|]; [|raised].
  destruct (in_cluster_store_keys re_other ndf parent) as [pkey|]; [|raised].
  rewrite !res_bind_ok.
  destruct (ckey && pkey) eqn:Hboth.
  - destruct (melt re_other ndf child) as [m|] eqn:Hm; [|raised].
    rewrite !res_bind_ok. intros [= <-]. split; [apply split_reduce_key_sorted|].
    destruct (melt_inv _ _ _ Hm) as (mask & Hmask & ->).
    exists ckey, pkey, mask. rewrite Hboth. do 3 (split; [done|]). intros t.
    rewrite elem_of_split_reduce_key, np_tokens_app_space, elem_of_app,
      elem_of_np_tokens_melted.
    tauto.
  - destruct (melt re_other ndf parent) as [m|] eqn:Hm; [|raised].
    rewrite !res_bind_ok. intros [= <-]. split; [apply split_reduce_key_sorted|].
    destruct (melt_inv _ _ _ Hm) as (mask & Hmask & ->).
    exists ckey, pkey, mask. rewrite Hboth. do 3 (split; [done|]). intros t.
    rewrite elem_of_split_reduce_key, np_tokens_app_space, elem_of_app,
      elem_of_np_tokens_melted.
    tauto.
Qed.

End Store.

Lemma get_cluster_store_keys_literal_witness :
  let ndf := _nodes Examples.merged_pair in
  let node := of_str "A" in
  literal (wrap_key node) = true ∧ COLLAPSE_NODE ∈ columns ndf
  ∧ get_cluster_store_keys Examples.no_other ndf node
    = Ok ((λ r : row, str_in (wrap_key node) (py_str (r !! COLLAPSE_NODE))) <$> rows ndf)
  ∧ ∃ b, in_cluster_store_keys Examples.no_other ndf node = Ok b
         ∧ (b = true ↔ ∃ r : row, r ∈ rows ndf
                         ∧ str_in (wrap_key node) (py_str (r !! COLLAPSE_NODE)) = true).
Proof.
  intros ndf node. split; [reflexivity|]. split; [solve_closed|].
  apply (get_cluster_store_keys_literal Examples.no_other ndf node);
    [reflexivity|solve_closed].
Defined.

Lemma in_cluster_store_keys_exact_witness :
  let ndf := _nodes Examples.merged_pair in
  let node := of_str "A" in
  literal (wrap_key node) = true ∧ str_in WRAP (py_str node) = false
  ∧ no_space (py_str node) = true
  ∧ (COLLAPSE_NODE ∈ columns ndf)
  ∧ Forall (λ r : row, well_wrapped (py_str (r !! COLLAPSE_NODE))) (rows ndf)
  ∧ get_cluster_store_keys Examples.no_other ndf node
    = Ok ((λ r : row, bool_decide (wrap_key node ∈ split (py_str (r !! COLLAPSE_NODE))))
            <$> rows ndf)
  ∧ ∃ b, in_cluster_store_keys Examples.no_other ndf node = Ok b
         ∧ (b = true ↔ ∃ r : row, r ∈ rows ndf
                         ∧ wrap_key node ∈ split (py_str (r !! COLLAPSE_NODE))).
Proof.
  intros ndf node.
  assert (Forall (λ r : row, well_wrapped (py_str (r !! COLLAPSE_NODE))) (rows ndf)) as Hkeys.
  { repeat (apply Forall_cons_2; [apply well_wrapped_check; reflexivity|]).
    apply Forall_nil_2. }
  split; [reflexivity|]. split; [reflexivity|]. split; [reflexivity|].
  split; [solve_closed|]. split; [exact Hkeys|].
  apply (in_cluster_store_keys_exact Examples.no_other ndf node);
    [reflexivity|reflexivity|reflexivity|solve_closed|exact Hkeys].
Defined.

Lemma cluster_store_needs_column_witness :
  let g := Examples.two_cycle in
  let e : exn := KeyError COLLAPSE_NODE in
  (COLLAPSE_NODE ∉ columns (_nodes g))
  ∧ get_cluster_store_keys Examples.no_other (_nodes g) (of_str "(") = Raise e
  ∧ in_cluster_store_keys Examples.no_other (_nodes g) (of_str "(") = Raise e
  ∧ melt Examples.no_other (_nodes g) (of_str "(") = Raise e
  ∧ get_new_node_name Examples.no_other (_nodes g) (of_str "A") (of_str "(") = Raise e
  ∧ collapse_nodes_and_edges Examples.no_other g (of_str "A") (of_str "(") = Raise e.
Proof.
  intros g e. split; [solve_closed|].
  apply (cluster_store_needs_column Examples.no_other g (of_str "A") (of_str "(")).
  solve_closed.
Defined.

Lemma melt_tokens_witness :
  let ndf := _nodes Examples.merged_pair in
  let node := of_str "B" in
  let k := "~A~ ~B~" in
  melt Examples.no_other ndf node = Ok k
  ∧ ∃ mask, get_cluster_store_keys Examples.no_other ndf node = Ok mask
      ∧ (select (rows ndf) mask = [] → k = wrap_key node)
      ∧ (select (rows ndf) mask ≠ [] →
         StronglySorted str_lt (split k)
         ∧ ∀ t, t ∈ split k
                ↔ t ∈ np_tokens (wrap_key node)
                  ∨ ∃ r : row, r ∈ select (rows ndf) mask
                               ∧ t ∈ np_tokens (py_str (r !! COLLAPSE_NODE))).
Proof.
  intros ndf node k. split; [vm_compute; reflexivity|].
  apply (melt_tokens Examples.no_other ndf node k). vm_compute; reflexivity.
Defined.

Lemma get_new_node_name_tokens_witness :
  let ndf := _nodes Examples.merged_pair in
  let parent := of_str "B" in
  let child := of_str "C" in
  let k := "~A~ ~B~ ~C~" in
  get_new_node_name Examples.no_other ndf parent child = Ok k
  ∧ StronglySorted str_lt (split k)
  ∧ ∃ (ckey pkey : bool) (mask : list bool),
      in_cluster_store_keys Examples.no_other ndf child = Ok ckey
      ∧ in_cluster_store_keys Examples.no_other ndf parent = Ok pkey
      ∧ get_cluster_store_keys Examples.no_other ndf (if ckey && pkey then child else parent)
        = Ok mask
      ∧ ∀ t, t ∈ split k
             ↔ t ∈ np_tokens (wrap_key parent) ∨ t ∈ np_tokens (wrap_key child)
               ∨ ∃ r : row, r ∈ select (rows ndf) mask
                            ∧ t ∈ np_tokens (py_str (r !! COLLAPSE_NODE)).
Proof.
  intros ndf parent child k. split; [vm_compute; reflexivity|].
  apply (get_new_node_name_tokens Examples.no_other ndf parent child k).
  vm_compute; reflexivity.
Defined.

(** ** Keys that stay well-formed *)

Lemma elem_of_select {A : Type} (l : list A) (mask : list bool) (x : A) :
  x ∈ select l mask → x ∈ l.
Proof.
  revert mask. induction l as [|y l IH]; intros [|[] mask]; cbn [select];
    rewrite ?elem_of_cons; try (by intros []%elem_of_nil); [intros [->|?]|intros ?]; eauto.
Qed.

Lemma split_token (t : string) : token t → split t = [t].
Proof. intros Ht. apply (split_join_tokens [t]). by apply Forall_cons_2; [|apply Forall_nil_2]. Qed.

(** The encoding of an identity without delimiter and without space is
    one wrapped token. *)
Lemma split_wrap_key (x : value) :
  str_in WRAP (py_str x) = false → no_space (py_str x) = true →
  split (wrap_key x) = [wrap_key x] ∧ wrapped (wrap_key x).
Proof.
  intros Hx Hsp. unfold wrap_key. rewrite Hx. split; [|by exists (py_str x)].
  apply split_token. split; [done|].
  change (WRAP +:+ py_str x +:+ WRAP) with (String "~" (py_str x +:+ WRAP)).
  cbn [no_space]. by rewrite no_space_app, Hsp.
Qed.

Section WellFormed.
Variable re_other : string → res (string → bool).

Lemma elem_of_split_new_node_name (ndf : DataFrame) (parent child : value) (k t : string) :
  get_new_node_name re_other ndf parent child = Ok k → t ∈ split k →
  t ∈ np_tokens (wrap_key parent) ∨ t ∈ np_tokens (wrap_key child)
  ∨ ∃ r : row, r ∈ rows ndf ∧ t ∈ np_tokens (py_str (r !! COLLAPSE_NODE)).
Proof.
  unfold get_new_node_name.
  destruct (in_cluster_store_keys re_other ndf child) as [ckey|]; [|raised].
  destruct (in_cluster_store_keys re_other ndf parent) as [pkey|]; [|raised].
  rewrite !res_bind_ok.
  destruct (ckey && pkey).
  - destruct (melt re_other ndf child) as [m|] eqn:Hm; [|raised].
    rewrite !res_bind_ok. intros [= <-].
    destruct (melt_inv _ _ _ _ Hm) as (mask & Hmask & ->).
    rewrite elem_of_split_reduce_key, np_tokens_app_space, elem_of_app,
      elem_of_np_tokens_melted.
    intros [[?|(r & Hr%elem_of_select & ?)]|?]; eauto.
  - destruct (melt re_other ndf parent) as [m|] eqn:Hm; [|raised].
    rewrite !res_bind_ok. intros [= <-].
    destruct (melt_inv _ _ _ _ Hm) as (mask & Hmask & ->).
    rewrite elem_of_split_reduce_key, np_tokens_app_space, elem_of_app,
      elem_of_np_tokens_melted.
    intros [[?|(r & Hr%elem_of_select & ?)]|?]; eauto.
Qed.

(** What [np.unique] hands back of a token that holds no delimiter or is
    wrapped is such a token. *)
Lemma np_tokens_well_wrapped (key t : string) :
  well_wrapped key → t ∈ np_tokens key → str_in WRAP t = false ∨ wrapped t.
Proof.
  intros Hkey (_ & t0 & Ht0 & ->)%elem_of_np_tokens.
  destruct (proj1 (Forall_forall _ _) Hkey t0 Ht0) as [Hno|(x & -> & Hx)].
  - left. by rewrite str_in_wrap_rstrip_nul.
  - right. change (WRAP +:+ x +:+ WRAP) with (String "~" x +:+ String "~" "").
    rewrite rstrip_nul_last by done. by exists x.
Qed.

(** X22. A merge keeps the store well-formed: when every token of every
    pending key of the node table holds no delimiter or is a wrapped text
    without delimiter, and the two identities hold neither delimiter nor
    white space, the same is true of the node table that
    [collapse_nodes_and_edges] returns, so that the lookup of the store
    stays exact. *)
Theorem collapse_nodes_and_edges_well_wrapped (g g' : Plottable) (parent child : value) :
  Forall (λ r : row, well_wrapped (py_str (r !! COLLAPSE_NODE))) (rows (_nodes g)) →
  str_in WRAP (py_str parent) = false → no_space (py_str parent) = true →
  str_in WRAP (py_str child) = false → no_space (py_str child) = true →
  collapse_nodes_and_edges re_other g parent child = Ok g' →
  Forall (λ r : row, well_wrapped (py_str (r !! COLLAPSE_NODE))) (rows (_nodes g')).
Proof.
  intros Hkeys Hp Hps Hc Hcs. unfold collapse_nodes_and_edges, unpack.
  destruct (get_new_node_name re_other (_nodes g) parent child) as [key|] eqn:Hkey;
    [|raised].
  rewrite res_bind_ok. cbv zeta.
  assert (well_wrapped key) as Hwell.
  { apply Forall_forall. intros t Ht.
    assert (∀ x : value, str_in WRAP (py_str x) = false → no_space (py_str x) = true →
                         well_wrapped (wrap_key x)) as Hwrap.
    { intros x Hx Hxs. destruct (split_wrap_key x Hx Hxs) as [Heq Hw].
      unfold well_wrapped. rewrite Heq. apply Forall_cons_2; [by right|apply Forall_nil_2]. }
    destruct (elem_of_split_new_node_name _ _ _ _ _ Hkey Ht) as [Hin|[Hin|(r & Hr & Hin)]].
    - exact (np_tokens_well_wrapped _ _ (Hwrap parent Hp Hps) Hin).
    - exact (np_tokens_well_wrapped _ _ (Hwrap child Hc Hcs) Hin).
    - pose proof (proj1 (Forall_forall _ _) Hkeys r Hr) as Hr'.
      exact (np_tokens_well_wrapped _ _ Hr' Hin). }
  assert (∀ (b : bool) (r : row),
            well_wrapped (py_str (r !! COLLAPSE_NODE)) →
            well_wrapped (py_str ((if b then set_cell COLLAPSE_NODE (of_str key) r else r)
                                    !! COLLAPSE_NODE))) as Hset.
  { intros [] r Hr; [|done]. by rewrite lookup_set_cell, decide_True. }
  destruct (df_col (_nodes g) (_node g)) as [ids1|] eqn:H1; [|raised].
  apply df_col_ok in H1 as [_ ->]. rewrite res_bind_ok.
  destruct (loc_set (_nodes g) _ _ _) as [ndf1|] eqn:E1; [|raised].
  apply loc_set_inv in E1 as ->. rewrite res_bind_ok.
  destruct (df_col _ (_node g)) as [ids2|] eqn:H2; [|raised].
  apply df_col_ok in H2 as [_ ->]. rewrite res_bind_ok.
  destruct (loc_set (loc_write _ _ _ _) _ _ _) as [ndf2|] eqn:E2; [|raised].
  apply loc_set_inv in E2 as ->. rewrite res_bind_ok.
  destruct (df_col (_edges g) (_source g)) as [s1|]; [|raised]. rewrite res_bind_ok.
  destruct (loc_set (_edges g) _ _ _) as [edf1|]; [|raised]. rewrite res_bind_ok.
  destruct (df_col _ (_destination g)) as [d1|]; [|raised]. rewrite res_bind_ok.
  destruct (loc_set edf1 _ _ _) as [edf2|]; [|raised]. rewrite res_bind_ok.
  destruct (df_col _ (_source g)) as [s2|]; [|raised]. rewrite res_bind_ok.
  destruct (loc_set edf2 _ _ _) as [edf3|]; [|raised]. rewrite res_bind_ok.
  destruct (df_col _ (_destination g)) as [d2|]; [|raised]. rewrite res_bind_ok.
  destruct (loc_set edf3 _ _ _) as [edf4|]; [|raised]. rewrite res_bind_ok.
  intros [= <-]. cbn [_nodes set_nodes set_edges].
  rewrite !rows_loc_write, <- list_fmap_compose.
  apply Forall_fmap. eapply Forall_impl; [exact Hkeys|]. intros r Hr. cbn.
  by apply Hset, Hset.
Qed.

End WellFormed.

Lemma collapse_nodes_and_edges_well_wrapped_witness :
  let g := Examples.merged_pair in
  let parent := of_str "B" in
  let child := of_str "C" in
  Forall (λ r : row, well_wrapped (py_str (r !! COLLAPSE_NODE))) (rows (_nodes g))
  ∧ str_in WRAP (py_str parent) = false ∧ no_space (py_str parent) = true
  ∧ str_in WRAP (py_str child) = false ∧ no_space (py_str child) = true
  ∧ ∃ g', collapse_nodes_and_edges Examples.no_other g parent child = Ok g'
          ∧ Forall (λ r : row, well_wrapped (py_str (r !! COLLAPSE_NODE))) (rows (_nodes g')).
Proof.
  intros g parent child.
  assert (Forall (λ r : row, well_wrapped (py_str (r !! COLLAPSE_NODE))) (rows (_nodes g)))
    as Hkeys.
  { repeat (apply Forall_cons_2; [apply well_wrapped_check; reflexivity|]).
    apply Forall_nil_2. }
  split; [exact Hkeys|]. do 4 (split; [reflexivity|]).
  eexists. split; [vm_compute; reflexivity|].
  apply (collapse_nodes_and_edges_well_wrapped Examples.no_other g _ parent child Hkeys);
    [reflexivity..|vm_compute; reflexivity].
Defined.

(** ** What a traversal leaves alone *)

Lemma select_all_false {A : Type} (f : A → bool) (l : list A) :
  (∀ x, x ∈ l → f x = false) → select l (f <$> l) = [].
Proof.
  induction l as [|x l IH]; [done|]. intros H. cbn.
  rewrite (H x) by left. apply IH. intros y Hy. apply H. by right.
Qed.

Lemma has_property_nowhere (g : Plottable) (ref_node attribute : value) (column : string)
  (b : bool) :
  (∀ r : row, r ∈ rows (_nodes g) → py_eq (r !! column) attribute = false) →
  has_property g ref_node attribute column = Ok b → b = false.
Proof.
  intros Hno. unfold has_property, unpack.
  destruct (df_col (_nodes g) column) as [vals|] eqn:Hvals; [|raised].
  apply df_col_ok in Hvals as [_ ->]. rewrite res_bind_ok.
  unfold series_eq. rewrite <- list_fmap_compose.
  unfold df_mask. rewrite select_all_false by exact Hno.
  unfold df_col. cbn [columns rows]. case_decide; [|raised].
  rewrite res_bind_ok. by intros [= <-].
Qed.

Lemma same_table_outside_refl (labels : list string) (df : DataFrame) :
  same_table_outside labels df df.
Proof. split; [done|]. by apply Forall_Forall2_diag, Forall_forall. Qed.

Lemma same_table_outside_trans (labels : list string) (df1 df2 df3 : DataFrame) :
  same_table_outside labels df1 df2 → same_table_outside labels df2 df3 →
  same_table_outside labels df1 df3.
Proof.
  intros [Hc1 Hr1] [Hc2 Hr2]. split; [congruence|].
  assert (Transitive (same_outside labels)) as Htrans.
  { intros r1 r2 r3 H1 H2 l Hl. by rewrite H2, H1. }
  by etrans.
Qed.

Lemma same_table_outside_loc_set (labels : list string) (df df' : DataFrame)
  (id_label l : string) (ids : list value) (x v : value) :
  l ∈ labels → l ∈ columns df → df_col df id_label = Ok ids →
  loc_set df (series_eq ids x) l v = Ok df' →
  same_table_outside labels df df'.
Proof.
  intros Hl Hcol [_ ->]%df_col_ok ->%loc_set_inv. split.
  - by apply add_column_present.
  - rewrite rows_loc_write. apply Forall2_fmap_r, Forall_Forall2_diag, Forall_forall.
    intros r _ l' Hl'. destruct (py_eq (r !! id_label) x); [|done].
    apply lookup_set_cell_ne. by intros ->.
Qed.

Lemma only_pending_differ_refl (g : Plottable) : only_pending_differ g g.
Proof. split; [done|]. split; apply same_table_outside_refl. Qed.

Lemma only_pending_differ_trans (g1 g2 g3 : Plottable) :
  only_pending_differ g1 g2 → only_pending_differ g2 g3 → only_pending_differ g1 g3.
Proof.
  intros (Hl1 & Hn1 & He1) (Hl2 & Hn2 & He2). split; [congruence|].
  split; eapply same_table_outside_trans; done.
Qed.

Lemma only_pending_differ_columns (g g' : Plottable) :
  only_pending_differ g g' → has_pending_columns g → has_pending_columns g'.
Proof. intros (_ & [Hn _] & [He _]) [? ? ?]. split; by rewrite ?Hn, ?He. Qed.

Section Frame.

Variable re_other : string → res (string → bool).

Lemma collapse_nodes_and_edges_only_pending (g g' : Plottable) (parent child : value) :
  has_pending_columns g →
  collapse_nodes_and_edges re_other g parent child = Ok g' →
  only_pending_differ g g'.
Proof.
  intros [Hcn Hcs Hcd]. unfold collapse_nodes_and_edges, unpack.
  destruct (get_new_node_name re_other (_nodes g) parent child) as [key|]; [|raised].
  rewrite res_bind_ok.
  destruct (df_col (_nodes g) (_node g)) as [ids1|] eqn:H1; [|raised].
  rewrite res_bind_ok.
  destruct (loc_set (_nodes g) _ _ _) as [ndf1|] eqn:E1; [|raised]. rewrite res_bind_ok.
  pose proof (same_table_outside_loc_set [COLLAPSE_NODE] _ _ _ COLLAPSE_NODE _ parent
                (of_str key) ltac:(set_solver) Hcn H1 E1) as Hn1.
  destruct (df_col ndf1 (_node g)) as [ids2|] eqn:H2; [|raised].
  rewrite res_bind_ok.
  destruct (loc_set ndf1 _ _ _) as [ndf2|] eqn:E2; [|raised]. rewrite res_bind_ok.
  assert (COLLAPSE_NODE ∈ columns ndf1) as Hcn1 by (by rewrite (proj1 Hn1)).
  pose proof (same_table_outside_loc_set [COLLAPSE_NODE] _ _ _ COLLAPSE_NODE _ child
                (of_str key) ltac:(set_solver) Hcn1 H2 E2) as Hn2.
  pose proof (same_table_outside_trans _ _ _ _ Hn1 Hn2) as Hn.
  destruct (df_col (_edges g) (_source g)) as [s1|] eqn:H3; [|raised].
  rewrite res_bind_ok.
  destruct (loc_set (_edges g) _ _ _) as [edf1|] eqn:E3; [|raised]. rewrite res_bind_ok.
  pose proof (same_table_outside_loc_set [COLLAPSE_SRC; COLLAPSE_DST] _ _ _ COLLAPSE_SRC _
                parent (of_str key) ltac:(set_solver) Hcs H3 E3) as He1.
  destruct (df_col edf1 (_destination g)) as [d1|] eqn:H4; [|raised].
  rewrite res_bind_ok.
  destruct (loc_set edf1 _ _ _) as [edf2|] eqn:E4; [|raised]. rewrite res_bind_ok.
  assert (COLLAPSE_DST ∈ columns edf1) as Hcd1 by (by rewrite (proj1 He1)).
  pose proof (same_table_outside_loc_set [COLLAPSE_SRC; COLLAPSE_DST] _ _ _ COLLAPSE_DST _
                parent (of_str key) ltac:(set_solver) Hcd1 H4 E4) as He2.
  destruct (df_col edf2 (_source g)) as [s2|] eqn:H5; [|raised].
  rewrite res_bind_ok.
  destruct (loc_set edf2 _ _ _) as [edf3|] eqn:E5; [|raised]. rewrite res_bind_ok.
  assert (COLLAPSE_SRC ∈ columns edf2) as Hcs2 by (by rewrite (proj1 He2), (proj1 He1)).
  pose proof (same_table_outside_loc_set [COLLAPSE_SRC; COLLAPSE_DST] _ _ _ COLLAPSE_SRC _
                child (of_str key) ltac:(set_solver) Hcs2 H5 E5) as He3.
  destruct (df_col edf3 (_destination g)) as [d2|] eqn:H6; [|raised].
  rewrite res_bind_ok.
  destruct (loc_set edf3 _ _ _) as [edf4|] eqn:E6; [|raised]. rewrite res_bind_ok.
  assert (COLLAPSE_DST ∈ columns edf3) as Hcd3
    by (by rewrite (proj1 He3), (proj1 He2), (proj1 He1)).
  pose proof (same_table_outside_loc_set [COLLAPSE_SRC; COLLAPSE_DST] _ _ _ COLLAPSE_DST _
                child (of_str key) ltac:(set_solver) Hcd3 H6 E6) as He4.
  intros [= <-]. split; [done|]. split; [exact Hn|]. cbn [_edges set_nodes set_edges].
  eauto using same_table_outside_trans.
Qed.

(** X16. When no node row has the attribute, a traversal that returns has
    merged nothing and marked nothing: on a graph that has its pending
    columns it returns the graph and [seen] as they were given. *)
Theorem collapse_nothing_to_merge (depth : nat) (g : Plottable)
  (child parent attribute : value) (column : string) (seen : gmap string Z) (w : walk) :
  COLLAPSE_NODE ∈ columns (_nodes g) → COLLAPSE_SRC ∈ columns (_edges g) →
  (∀ r : row, r ∈ rows (_nodes g) → py_eq (r !! column) attribute = false) →
  collapse re_other depth g child parent attribute column seen = Ok w →
  w = (g, seen).
Proof.
  intros Hn Hs Hno. revert child parent seen w.
  induction depth as [|depth IH]; intros child parent seen w; [done|].
  cbn [collapse]. unfold collapse_call.
  rewrite check_default_present, res_bind_ok by done.
  case_decide; [by intros [= <-]|].
  destruct (has_property g parent attribute column) as [b|] eqn:Hb; [|raised].
  apply has_property_nowhere in Hb as ->; [|done]. rewrite res_bind_ok.
  destruct (get_edges_of_node g child true 1) as [es|]; [|raised].
  rewrite res_bind_ok.
  apply (for_each_invariant (λ w, w = (g, seen))); [done|].
  intros s x s' -> Hcall. cbn [fst snd] in Hcall. by apply IH in Hcall.
Qed.

(** X17. On a graph that has its pending columns, a traversal that
    returns has changed pending keys only: the column labels, the columns
    of both tables and the number of their rows are those of the input, and
    every row agrees with the input row at its place on every cell outside
    [collapse_node] in the node table, and outside [collapse_src] and
    [collapse_dst] in the edge table. *)
Theorem collapse_only_pending (depth : nat) (g : Plottable)
  (child parent attribute : value) (column : string) (seen : gmap string Z) (w : walk) :
  has_pending_columns g →
  collapse re_other depth g child parent attribute column seen = Ok w →
  only_pending_differ g w.1.
Proof.
  revert g child parent seen w.
  induction depth as [|depth IH]; intros g child parent seen w Hg; [done|].
  assert (∀ g1 seen1 es w1,
            only_pending_differ g g1 →
            for_each (λ (w : walk) e, collapse re_other depth w.1 e child attribute column w.2)
                     (g1, seen1) es = Ok w1 →
            only_pending_differ g w1.1) as Hloop.
  { intros g1 seen1 es w1 Hg1.
    apply (for_each_invariant (λ w, only_pending_differ g w.1)); [done|].
    intros s x s' Hs Hcall. apply IH in Hcall; [|by eapply only_pending_differ_columns].
    by eapply only_pending_differ_trans. }
  cbn [collapse]. unfold collapse_call.
  rewrite check_default_present, res_bind_ok by apply Hg.
  case_decide; [intros [= <-]; apply only_pending_differ_refl|].
  destruct (has_property g parent attribute column) as [[]|]; [| |raised];
    rewrite res_bind_ok.
  - set (first := if negb _ then _ else _).
    assert (∀ w1, first = Ok w1 → only_pending_differ g w1.1) as Hfirst.
    { subst first. intros w1. destruct (negb _).
      - destruct (collapse_nodes_and_edges re_other g parent parent) as [g1|] eqn:Hg1;
          [|raised].
        rewrite res_bind_ok. intros [= <-].
        by apply collapse_nodes_and_edges_only_pending in Hg1.
      - intros [= <-]. apply only_pending_differ_refl. }
    destruct first as [[g1 seen1]|]; [|raised]. rewrite res_bind_ok.
    specialize (Hfirst _ eq_refl). cbn [fst] in Hfirst.
    destruct (has_property g1 child attribute column) as [[]|]; [| |raised];
      rewrite res_bind_ok; [|by intros [= <-]].
    destruct (collapse_nodes_and_edges re_other g1 parent child) as [g2|] eqn:Hg2; [|raised].
    rewrite res_bind_ok.
    apply collapse_nodes_and_edges_only_pending in Hg2;
      [|by eapply only_pending_differ_columns].
    destruct (get_edges_of_node g2 parent true 1) as [es|]; [|raised].
    rewrite res_bind_ok. apply Hloop. by eapply only_pending_differ_trans.
  - destruct (get_edges_of_node g child true 1) as [es|]; [|raised].
    rewrite res_bind_ok. apply Hloop, only_pending_differ_refl.
Qed.

End Frame.

Lemma collapse_seen_grows_witness :
  let seen : gmap string Z := {[ "C C" := 1%Z ]} in
  ∃ g' seen',
    collapse Examples.no_other 5 Examples.chain (of_str "A") (of_str "A") (of_str "x")
             "type" seen = Ok (g', seen')
    ∧ dom seen ⊆ dom seen'.
Proof.
  intros seen. eexists _, _. split; [vm_compute; reflexivity|].
  eapply (collapse_seen_grows Examples.no_other 5 Examples.chain (of_str "A") (of_str "A")
           (of_str "x") "type" seen).
  vm_compute; reflexivity.
Defined.

Lemma collapse_nothing_to_merge_witness :
  let g := Prepared.single_edge in
  let run := collapse Examples.no_other 2 g (of_str "A") (of_str "A") (of_str "x") "type" ∅ in
  (COLLAPSE_NODE ∈ columns (_nodes g)) ∧ (COLLAPSE_SRC ∈ columns (_edges g))
  ∧ (∀ r : row, r ∈ rows (_nodes g) → py_eq (r !! "type") (of_str "x") = false)
  ∧ ∃ w, run = Ok w ∧ w = (g, ∅).
Proof.
  intros g run.
  assert (∀ r : row, r ∈ rows (_nodes g) → py_eq (r !! "type") (of_str "x") = false) as Hno.
  { apply Forall_forall. repeat constructor. }
  split; [solve_closed|]. split; [solve_closed|]. split; [exact Hno|].
  eexists. split; [vm_compute; reflexivity|].
  apply (collapse_nothing_to_merge Examples.no_other 2 g (of_str "A") (of_str "A")
           (of_str "x") "type" ∅);
    [solve_closed|solve_closed|exact Hno|vm_compute; reflexivity].
Defined.

Lemma collapse_only_pending_witness :
  let g := Examples.merged_pair in
  has_pending_columns g
  ∧ ∃ w, collapse Examples.no_other 5 g (of_str "A") (of_str "A") (of_str "x") "type" ∅ = Ok w
         ∧ only_pending_differ g w.1.
Proof.
  intros g. split; [exact pending_columns_merged_pair|].
  eexists. split; [vm_compute; reflexivity|].
  apply (collapse_only_pending Examples.no_other 5 g (of_str "A") (of_str "A") (of_str "x")
           "type" ∅); [exact pending_columns_merged_pair|vm_compute; reflexivity].
Defined.

(** ** Traversals that return *)





Section Returns.

Variable re_other : string → res (string → bool).





End Returns.


(** ** GraphNormalizer: dropping the pending columns, and what never happens *)

(** X18. On a graph that has its pending columns, [normalize_graph] with
    [remove_collapse=True] returns what it returns with
    [remove_collapse=False] less the three pending columns, labels and
    cells; and on that result every further [normalize_graph] raises
    [KeyError] for [collapse_node]. *)
Theorem normalize_graph_remove_collapse (g : Plottable) (self_edges unwrap : bool) :
  has_pending_columns g →
  ∃ g1 g2,
    normalize_graph g self_edges unwrap false = Ok g1
    ∧ normalize_graph g self_edges unwrap true = Ok g2
    ∧ columns (_nodes g2) = filter (λ c, c ∉ [COLLAPSE_NODE]) (columns (_nodes g1))
    ∧ rows (_nodes g2) = delete COLLAPSE_NODE <$> rows (_nodes g1)
    ∧ columns (_edges g2)
      = filter (λ c, c ∉ [COLLAPSE_SRC; COLLAPSE_DST]) (columns (_edges g1))
    ∧ rows (_edges g2) = (delete COLLAPSE_SRC ∘ delete COLLAPSE_DST) <$> rows (_edges g1)
    ∧ ∀ self_edges' unwrap' remove_collapse',
        normalize_graph g2 self_edges' unwrap' remove_collapse'
        = Raise (KeyError COLLAPSE_NODE).
Proof.
  intros Hg. eexists _, _.
  split; [by apply normalize_graph_keep|]. split; [by apply normalize_graph_drop|].
  do 4 (split; [reflexivity|]). intros se uw rc.
  unfold normalize_graph, unpack. cbv zeta.
  rewrite (df_col_absent (_nodes _) COLLAPSE_NODE); [reflexivity|]. cbn [_nodes columns dropped].
  rewrite list_elem_of_filter. intros [Hne _]. apply Hne. by left.
Qed.

Lemma normalize_graph_remove_collapse_witness :
  let g := Examples.merged_pair in
  has_pending_columns g
  ∧ ∃ g1 g2,
      normalize_graph g false true false = Ok g1
      ∧ normalize_graph g false true true = Ok g2
      ∧ columns (_nodes g2) = filter (λ c, c ∉ [COLLAPSE_NODE]) (columns (_nodes g1))
      ∧ rows (_nodes g2) = delete COLLAPSE_NODE <$> rows (_nodes g1)
      ∧ columns (_edges g2)
        = filter (λ c, c ∉ [COLLAPSE_SRC; COLLAPSE_DST]) (columns (_edges g1))
      ∧ rows (_edges g2) = (delete COLLAPSE_SRC ∘ delete COLLAPSE_DST) <$> rows (_edges g1)
      ∧ ∀ self_edges' unwrap' remove_collapse',
          normalize_graph g2 self_edges' unwrap' remove_collapse'
          = Raise (KeyError COLLAPSE_NODE).
Proof.
  intros g. split; [exact pending_columns_merged_pair|].
  apply (normalize_graph_remove_collapse g false true pending_columns_merged_pair).
Defined.

Lemma length_drop_duplicates {A : Type} `{EqDecision A} (l : list A) :
  (length (drop_duplicates l) ≤ length l)%nat.
Proof.
  induction l as [|x l IH]; [done|]. cbn [drop_duplicates length].
  pose proof (length_filter (λ y, y ≠ x) (drop_duplicates l)). lia.
Qed.

(** X19. On a graph that has its pending columns, [normalize_graph]
    returns for every setting of its options, and it never adds a row: the
    tables it returns have at most as many rows as the input tables, and
    with [self_edges=True] the edge table keeps every row. *)
Theorem normalize_graph_row_counts (g : Plottable)
  (self_edges unwrap remove_collapse : bool) :
  has_pending_columns g →
  ∃ g', normalize_graph g self_edges unwrap remove_collapse = Ok g'
        ∧ (length (rows (_nodes g')) ≤ length (rows (_nodes g)))%nat
        ∧ (length (rows (_edges g')) ≤ length (rows (_edges g)))%nat
        ∧ (self_edges = true → length (rows (_edges g')) = length (rows (_edges g))).
Proof.
  intros Hg.
  assert (length (rows (committed_nodes g unwrap)) ≤ length (rows (_nodes g)))%nat as Hn.
  { rewrite rows_committed_nodes, length_fmap.
    etrans; [apply length_drop_duplicates|]. by rewrite length_fmap. }
  assert ((length (rows (committed_edges g self_edges unwrap)) ≤ length (rows (_edges g)))%nat
          ∧ (self_edges = true →
             length (rows (committed_edges g self_edges unwrap)) = length (rows (_edges g))))
    as [He He'].
  { rewrite rows_committed_edges, length_fmap. destruct self_edges; cbn [negb].
    - by rewrite length_fmap.
    - split; [|done]. etrans; [apply length_drop_duplicates|]. by rewrite length_fmap. }
  destruct remove_collapse.
  - eexists. split; [exact (normalize_graph_drop g self_edges unwrap Hg)|].
    cbn [_nodes _edges rows dropped]. rewrite !length_fmap. auto.
  - eexists. split; [exact (normalize_graph_keep g self_edges unwrap Hg)|].
    cbn [_nodes _edges]. auto.
Qed.

Lemma normalize_graph_row_counts_witness :
  let g := Examples.merged_pair in
  has_pending_columns g
  ∧ ∃ g', normalize_graph g true true true = Ok g'
          ∧ (length (rows (_nodes g')) ≤ length (rows (_nodes g)))%nat
          ∧ (length (rows (_edges g')) ≤ length (rows (_edges g)))%nat
          ∧ (true = true → length (rows (_edges g')) = length (rows (_edges g))).
Proof.
  intros g. split; [exact pending_columns_merged_pair|].
  apply (normalize_graph_row_counts g true true true pending_columns_merged_pair).
Defined.

Lemma commit_default (target source : string) (r : row) :
  r !! source = Some (Str DEFAULT_VAL) → commit target source r = r.
Proof. intros Hr. unfold commit. by rewrite Hr. Qed.

(** X20. Normalizing a graph in which nothing was collapsed changes
    nothing: when every pending key is the default, the identity columns
    are there and the tables hold no duplicate row (the edge table may,
    with [self_edges=True]), [normalize_graph] without unwrapping and
    without dropping columns returns the graph it was given. *)
Theorem normalize_graph_nothing_pending (g : Plottable) (self_edges : bool) :
  has_pending_columns g → has_id_columns g →
  Forall (λ r : row, r !! COLLAPSE_NODE = Some (Str DEFAULT_VAL)) (rows (_nodes g)) →
  Forall (λ r : row, r !! COLLAPSE_SRC = Some (Str DEFAULT_VAL)
                     ∧ r !! COLLAPSE_DST = Some (Str DEFAULT_VAL)) (rows (_edges g)) →
  NoDup (rows (_nodes g)) →
  (self_edges = false → NoDup (rows (_edges g))) →
  normalize_graph g self_edges false false = Ok g.
Proof.
  intros Hg [Hnode Hsrc Hdst] Hn He Hdn Hde.
  rewrite normalize_graph_keep by done. f_equal. destruct g as [ndf edf src dst node].
  cbn [_nodes _edges _source _destination _node] in *.
  assert (commit node COLLAPSE_NODE <$> rows ndf = rows ndf) as Hrn.
  { rewrite <- (list_fmap_id (rows ndf)) at 2. apply Forall_fmap_ext.
    eapply Forall_impl; [exact Hn|]. intros r Hr. by apply commit_default. }
  assert (commit dst COLLAPSE_DST <$> (commit src COLLAPSE_SRC <$> rows edf) = rows edf) as Hre.
  { rewrite <- list_fmap_compose. rewrite <- (list_fmap_id (rows edf)) at 2.
    apply Forall_fmap_ext. eapply Forall_impl; [exact He|]. intros r [Hs Hd]. cbn.
    by rewrite (commit_default src), commit_default. }
  f_equal.
  - apply DataFrame_eq; unfold committed_nodes; cbn [columns rows _nodes _node].
    + by apply add_column_present.
    + by rewrite Hrn, drop_duplicates_NoDup.
  - apply DataFrame_eq; unfold committed_edges;
      cbn [columns rows _edges _source _destination].
    + rewrite (add_column_present src) by done. by apply add_column_present.
    + rewrite Hre. destruct self_edges; cbn [negb]; [done|].
      by rewrite drop_duplicates_NoDup by auto.
Qed.

Lemma normalize_graph_nothing_pending_witness :
  let g := Prepared.two_cycle in
  has_pending_columns g ∧ has_id_columns g
  ∧ Forall (λ r : row, r !! COLLAPSE_NODE = Some (Str DEFAULT_VAL)) (rows (_nodes g))
  ∧ Forall (λ r : row, r !! COLLAPSE_SRC = Some (Str DEFAULT_VAL)
                       ∧ r !! COLLAPSE_DST = Some (Str DEFAULT_VAL)) (rows (_edges g))
  ∧ NoDup (rows (_nodes g))
  ∧ (false = false → NoDup (rows (_edges g)))
  ∧ normalize_graph g false false false = Ok g.
Proof.
  intros g.
  assert (has_pending_columns g) as Hp by (constructor; solve_closed).
  assert (has_id_columns g) as Hi by (constructor; solve_closed).
  assert (Forall (λ r : row, r !! COLLAPSE_NODE = Some (Str DEFAULT_VAL)) (rows (_nodes g)))
    as Hn by (repeat constructor).
  assert (Forall (λ r : row, r !! COLLAPSE_SRC = Some (Str DEFAULT_VAL)
                             ∧ r !! COLLAPSE_DST = Some (Str DEFAULT_VAL)) (rows (_edges g)))
    as He by (repeat constructor).
  assert (NoDup (rows (_nodes g))) as Hdn by solve_closed.
  assert (false = false → NoDup (rows (_edges g))) as Hde by (intros _; solve_closed).
  do 6 (split; [assumption|]).
  exact (normalize_graph_nothing_pending g false Hp Hi Hn He Hdn Hde).
Defined.

